(** * ordered_sync_map: an insertion-ordered map (src/mymap/map.go)

    A shallow embedding of the Go package [ordered_sync_map] and the
    properties of its operations.  The package keeps a hash index
    [mp : map[interface{}]*list.Element] next to a doubly linked list
    [dll : *list.List] of [mapElement{key, value}] nodes.

    The embedding is sequential: every method body runs between the
    acquisition and the release of [mu], so a method is a function on the
    state guarded by that lock.  [mu] itself is not part of the state. *)

From Stdlib Require Import ZArith Lia.
From stdpp Require Import gmap strings list fin_maps countable.

Local Open Scope Z_scope.
Set Warnings "-clear-no-such-hyp".

(** ** Dynamic values: Go's [interface{}] *)

(** The values of comparable dynamic type that may be stored behind an
    [interface{}]: the nil interface, integers, strings, the [float64] value
    NaN, which is hashable but not equal to itself, and the package's own
    struct [mapElement] (two [interface{}] fields), which is itself a value
    of type [interface{}] once it is stored in [list.Element.Value].
    Values of a dynamic type that cannot be compared (slices, maps,
    functions) are left out: Go's maps do not take them as keys. *)
Inductive any : Type :=
  | Nil
  | Int (n : Z)
  | Str (s : string)
  | NaN
  | Struct (k v : any).

(** [type mapElement struct { key interface{}; value interface{} }] *)
Record mapElement : Type := MkMapElement { key : any; value : any }.

(** Storing a [mapElement] in an [interface{}]. *)
Definition box (me : mapElement) : any := Struct (key me) (value me).

(** The type assertion [x.(mapElement)]; [None] is the run-time panic. *)
Definition assert_mapElement (x : any) : option mapElement :=
  match x with
  | Struct k v => Some (MkMapElement k v)
  | _ => None
  end.

#[global] Instance any_eq_dec : EqDecision any.
Proof.
  intros x y. unfold Decision.
  decide equality; [apply Z.eq_dec | apply String.string_dec].
Defined.

#[global] Instance mapElement_eq_dec : EqDecision mapElement.
Proof. solve_decision. Defined.

Fixpoint any_to_tree (x : any) : gen_tree (bool + (Z + string)) :=
  match x with
  | Nil => GenLeaf (inl false)
  | NaN => GenLeaf (inl true)
  | Int n => GenLeaf (inr (inl n))
  | Str s => GenLeaf (inr (inr s))
  | Struct k v => GenNode 0 [any_to_tree k; any_to_tree v]
  end.

Fixpoint tree_to_any (t : gen_tree (bool + (Z + string))) : option any :=
  match t with
  | GenLeaf (inl false) => Some Nil
  | GenLeaf (inl true) => Some NaN
  | GenLeaf (inr (inl n)) => Some (Int n)
  | GenLeaf (inr (inr s)) => Some (Str s)
  | GenNode 0 [tk; tv] =>
      match tree_to_any tk, tree_to_any tv with
      | Some k, Some v => Some (Struct k v)
      | _, _ => None
      end
  | GenNode _ _ => None
  end.

#[global] Instance any_countable : Countable any.
Proof.
  refine (inj_countable any_to_tree tree_to_any _).
  intros x. induction x as [| n | s | | k IHk v IHv]; simpl; try reflexivity.
  rewrite IHk, IHv. reflexivity.
Defined.

(** Go's [==] on two interface values: equal dynamic types and equal
    values.  NaN is equal to nothing, itself included; two structs are equal
    when their fields are. *)
Fixpoint go_eq (x y : any) : bool :=
  match x, y with
  | Nil, Nil => true
  | Int a, Int b => bool_decide (a = b)
  | Str a, Str b => bool_decide (a = b)
  | Struct k v, Struct k' v' => go_eq k k' && go_eq v v'
  | _, _ => false
  end.

(** ** Go's [container/list], as far as the package uses it *)

(** A [*list.Element] is an address. *)
Abbreviation ptr := positive (only parsing).

Module container_list.

(** A [list.List] together with the elements it has allocated.
    [store] holds the [Value] field of every element [PushFront] ever
    returned (an element stays readable through its pointer after
    [Remove]); [chain] lists the linked elements from the front to the
    back; [next] is the address of the next allocation. *)
Record List : Type := MkList {
  store : gmap ptr any;
  chain : list ptr;
  next : ptr
}.

(** [list.New()] *)
Definition New : List := MkList ∅ [] 1%positive.

(** [l.PushFront(v)]: a new element holding [v], linked at the front. *)
Definition PushFront (v : any) (l : List) : ptr * List :=
  let e := next l in
  (e, MkList (<[e := v]> (store l)) (e :: chain l) (Pos.succ e)).

(** Unlinking one element of a chain. *)
Fixpoint unlink (e : ptr) (c : list ptr) : list ptr :=
  match c with
  | [] => []
  | x :: rest => if decide (x = e) then rest else x :: unlink e rest
  end.

(** [l.Remove(e)]: unlinks [e] when it is linked in [l]; [e.Value] stays. *)
Definition Remove (e : ptr) (l : List) : List :=
  MkList (store l) (unlink e (chain l)) (next l).

(** [l.Len()] *)
Definition Len (l : List) : Z := Z.of_nat (length (chain l)).

(** [l.Back()]: the last element, [None] for Go's [nil]. *)
Definition Back (l : List) : option ptr := list.last (chain l).

(** The element linked just before [e] in a chain. *)
Fixpoint before (e : ptr) (c : list ptr) : option ptr :=
  match c with
  | x :: ((y :: _) as rest) =>
      if decide (y = e) then Some x else before e rest
  | _ => None
  end.

(** [e.Prev()]: the previous element, [None] at the front. *)
Definition Prev (e : ptr) (l : List) : option ptr := before e (chain l).

(** Reading [e.Value]. *)
Definition Value (e : ptr) (l : List) : option any := store l !! e.

(** The assignment [e.Value = v]. *)
Definition SetValue (e : ptr) (v : any) (l : List) : List :=
  MkList (<[e := v]> (store l)) (chain l) (next l).

End container_list.

(** ** Go's [map[interface{}]*list.Element] *)

(** A Go map finds an entry by [==] on its key.  A key that is equal to
    itself has at most one entry; these are [hits].  A key that is not equal
    to itself is never found again: every assignment to it adds an entry,
    which no lookup and no [delete] reaches and only [range] visits; these
    are [misses]. *)
Record gomap : Type := MkGomap {
  hits : gmap any ptr;
  misses : list (any * ptr)
}.

(** [make(map[interface{}]*list.Element)] *)
#[global] Instance gomap_empty : Empty gomap := MkGomap ∅ [].

(** [v, ok := m[k]] *)
#[global] Instance gomap_lookup : Lookup any ptr gomap :=
  λ k g, if go_eq k k then hits g !! k else None.

(** [m[k] = e] *)
#[global] Instance gomap_insert : Insert any ptr gomap :=
  λ k e g,
    if go_eq k k then MkGomap (<[k := e]> (hits g)) (misses g)
    else MkGomap (hits g) ((k, e) :: misses g).

(** [delete(m, k)] *)
#[global] Instance gomap_delete : Delete any gomap :=
  λ k g, if go_eq k k then MkGomap (delete k (hits g)) (misses g) else g.

(** The entries a [range] over the map visits, in one of the possible
    orders. *)
Definition gomap_entries (g : gomap) : list (any * ptr) :=
  map_to_list (hits g) ++ misses g.

(** [len(m)] *)
#[global] Instance gomap_size : Size gomap := λ g, length (gomap_entries g).

(** ** The package *)

Module ordered_sync_map.
Import container_list.

(** [type Map struct { mp map[interface{}]*list.Element; mu sync.RWMutex;
    dll *list.List }], without the lock. *)
Record Map : Type := MkMap {
  mp : gomap;
  dll : List
}.

(** [New] *)
Definition New : Map := MkMap ∅ container_list.New.

(** [v.Value.(mapElement)] for an element pointer [v]. *)
Definition element (e : ptr) (l : List) : option mapElement :=
  Value e l ≫= assert_mapElement.

(** [Get]: the results and the state the method leaves; [None] stands for
    a panic of the type assertion. *)
Definition Get (key : any) (m : Map) : option ((any * bool) * Map) :=
  match mp m !! key with
  | None => Some ((Nil, false), m)
  | Some v =>
      me ← element v (dll m);
      Some ((value me, true), m)
  end.

(** [Put] *)
Definition Put (key val : any) (m : Map) : Map :=
  match mp m !! key with
  | None =>
      let '(e, l) := PushFront (box (MkMapElement key val)) (dll m) in
      MkMap (<[key := e]> (mp m)) l
  | Some e =>
      MkMap (mp m) (SetValue e (box (MkMapElement key val)) (dll m))
  end.

(** [Delete] *)
Definition Delete (key : any) (m : Map) : bool * Map :=
  match mp m !! key with
  | None => (false, m)
  | Some e => (true, MkMap (delete key (mp m)) (Remove e (dll m)))
  end.

(** The loop of [OrderedRange]: [cur] walks from the back of the list with
    [Prev]; the result is the list of the calls [f(me.key, me.value)] in
    the order they are made.  [fuel] bounds the number of iterations. *)
Fixpoint OrderedRange_loop (fuel : nat) (cur : option ptr) (l : List)
  : option (list (any * any)) :=
  match cur with
  | None => Some []
  | Some e =>
      match fuel with
      | O => None
      | S fuel' =>
          me ← element e l;
          rest ← OrderedRange_loop fuel' (Prev e l) l;
          Some ((key me, value me) :: rest)
      end
  end.

(** [OrderedRange]: the sequence of calls made to the callback.  The list
    is as long as [Len], which is fuel enough for the walk whenever no
    element is linked twice; [None] is then a panic of the type
    assertion. *)
Definition OrderedRange (m : Map) : option (list (any * any)) :=
  OrderedRange_loop (length (chain (dll m))) (Back (dll m)) (dll m).

(** [UnorderedRange]: [for k, v := range m.mp] enumerates the index in
    an unspecified order, so the calls made to the callback are a relation:
    any enumeration [entries] of the index may be the one taken. *)
Definition UnorderedRange (m : Map) (calls : list (any * any)) : Prop :=
  ∃ entries : list (any * ptr),
    entries ≡ₚ gomap_entries (mp m) ∧
    mapM (λ kv, me ← element kv.2 (dll m); Some (kv.1, value me)) entries
      = Some calls.

(** [Length] *)
Definition Length (m : Map) : Z := Len (dll m).

(** [GetOrPut] *)
Definition GetOrPut (key value : any) (m : Map) : (any * bool) * Map :=
  match mp m !! key with
  | Some e =>
      ((value, true),
       MkMap (mp m) (SetValue e (box (MkMapElement key value)) (dll m)))
  | None =>
      let '(e, l) := PushFront (box (MkMapElement key value)) (dll m) in
      ((value, false), MkMap (<[key := e]> (mp m)) l)
  end.

(** [GetAndDelete]: the first component is [e.Value] as the code returns
    it. *)
Definition GetAndDelete (key : any) (m : Map) : option ((any * bool) * Map) :=
  match mp m !! key with
  | Some e =>
      let l := Remove e (dll m) in
      v ← Value e l;
      Some ((v, true), MkMap (delete key (mp m)) l)
  | None => Some ((Nil, false), m)
  end.

End ordered_sync_map.

(** ** The representation invariant *)

Import container_list ordered_sync_map.

(** The index and the list describe the same entries: the linked elements
    are pairwise distinct, every entry of the index points to a linked
    element that stores the key of the entry, every linked element is
    pointed to by an entry, no two entries point to the same element, the
    entries no lookup reaches are those of the keys not equal to themselves,
    and the allocator never hands out an address twice. *)
Record wf (m : Map) : Prop := MkWf {
  wf_nodup : NoDup (chain (dll m));
  wf_entries : ∀ k e, (k, e) ∈ gomap_entries (mp m) →
    e ∈ chain (dll m) ∧ ∃ v, store (dll m) !! e = Some (Struct k v);
  wf_nodes : ∀ e, e ∈ chain (dll m) → ∃ k, (k, e) ∈ gomap_entries (mp m);
  wf_ptrs : NoDup (gomap_entries (mp m)).*2;
  wf_misses : ∀ k e, (k, e) ∈ misses (mp m) → go_eq k k = false;
  wf_alloc : ∀ e, is_Some (store (dll m) !! e) → (e < next (dll m))%positive
}.

(** The states a program can reach through the methods that write. *)
Inductive reachable : Map → Prop :=
  | reachable_New : reachable New
  | reachable_Put k v m : reachable m → reachable (Put k v m)
  | reachable_Delete k m : reachable m → reachable (Delete k m).2
  | reachable_GetOrPut k v m : reachable m → reachable (GetOrPut k v m).2
  | reachable_GetAndDelete k m r m' :
      reachable m → GetAndDelete k m = Some (r, m') → reachable m'.

(** ** What the list holds *)

(** The (key, value) pair an element stores. *)
Definition entry (m : Map) (e : ptr) : any * any :=
  match element e (dll m) with
  | Some me => (key me, value me)
  | None => (Nil, Nil)
  end.

(** The entries of the list, from the front to the back. *)
Definition view (m : Map) : list (any * any) := entry m <$> chain (dll m).

(** One iteration of a traversal: the arguments of the call of [f]. *)
Definition visit (l : List) (e : ptr) : option (any * any) :=
  me ← element e l; Some (key me, value me).

(** ** Vocabulary of the statements *)

(** The test [_, ok := m.mp[key]] every method starts with. *)
Definition present (k : any) (m : Map) : Prop := is_Some (mp m !! k).

(** An entry after the value of key [k] has been replaced by [v]. *)
Definition overwrite (k v : any) (kv : any * any) : any * any :=
  if decide (kv.1 = k) then (k, v) else kv.

(** A run of [Put] calls, in the order of the list. *)
Definition Puts (kvs : list (any * any)) (m : Map) : Map :=
  foldl (λ m' kv, Put kv.1 kv.2 m') m kvs.

(** [Put("a",1); Put("b",2); Put("a",3)] on the empty map. *)
Definition example_puts : Map :=
  Put (Str "a") (Int 3) (Put (Str "b") (Int 2) (Put (Str "a") (Int 1) New)).

(** The claim of C2 as it is written: after [Put]s of distinct keys,
    [OrderedRange] makes its calls in the reverse of the insertion order. *)
Definition reverse_insertion_order : Prop :=
  ∀ kvs : list (any * any),
    NoDup kvs.*1 → OrderedRange (Puts kvs New) = Some (reverse kvs).

(** The claim of C3 as it is written, for every key: what [GetOrPut(k, v)]
    does for an absent and for a present key, that it returns [v], and that
    a following [Get(k)] returns [v]. *)
Definition GetOrPut_every_key : Prop :=
  ∀ (m : Map) (k v : any),
    reachable m →
    (¬ present k m →
       (GetOrPut k v m).1 = (v, false)
       ∧ view (GetOrPut k v m).2 = (k, v) :: view m)
    ∧ (present k m →
       (GetOrPut k v m).1 = (v, true)
       ∧ view (GetOrPut k v m).2 = overwrite k v <$> view m)
    ∧ (GetOrPut k v m).1.1 = v
    ∧ fst <$> Get k (GetOrPut k v m).2 = Some (v, true).

(** The claim of C6 as it is written, for every key: [Get(k)] right after
    [Put(k, v)] returns [(v, true)], [Get] of a key that is not present
    returns nil and [false], and [Get] leaves the state as it is. *)
Definition Get_every_key : Prop :=
  ∀ (m : Map) (k v : any),
    Get k (Put k v m) = Some ((v, true), Put k v m)
    ∧ (¬ present k m → Get k m = Some ((Nil, false), m))
    ∧ (∀ r m', Get k m = Some (r, m') → m' = m).

(** ** Command sequences and their reference model *)

(** The methods that write, as commands of a program. *)
Inductive op : Type :=
  | OpPut (k v : any)
  | OpDelete (k : any)
  | OpGetOrPut (k v : any)
  | OpGetAndDelete (k : any).

(** The state a command leaves; [None] is a panic. *)
Definition exec (o : op) (m : Map) : option Map :=
  match o with
  | OpPut k v => Some (Put k v m)
  | OpDelete k => Some (Delete k m).2
  | OpGetOrPut k v => Some (GetOrPut k v m).2
  | OpGetAndDelete k => snd <$> GetAndDelete k m
  end.

(** A program: the commands in order, started on [New()]. *)
Definition run (ops : list op) : option Map :=
  foldl (λ om o, om ≫= exec o) (Some New) ops.

(** The reference model is the list of the entries in insertion order,
    with keys compared by Go's [==].  Writing a key replaces its value where
    the key stands, or adds the entry at the end. *)
Definition upsert (k v : any) (l : list (any * any)) : list (any * any) :=
  if existsb (λ kv, go_eq kv.1 k) l then overwrite k v <$> l
  else l ++ [(k, v)].

(** Removing a key from the reference model. *)
Definition remove_key (k : any) (l : list (any * any)) : list (any * any) :=
  filter (λ kv, go_eq kv.1 k = false) l.

Definition model_step (l : list (any * any)) (o : op) : list (any * any) :=
  match o with
  | OpPut k v | OpGetOrPut k v => upsert k v l
  | OpDelete k | OpGetAndDelete k => remove_key k l
  end.

Definition model (ops : list op) : list (any * any) := foldl model_step [] ops.

(** Looking a key up in the reference model. *)
Definition assoc_get (k : any) (l : list (any * any)) : any * bool :=
  match list_find (λ kv, go_eq kv.1 k = true) l with
  | Some (_, kv) => (kv.2, true)
  | None => (Nil, false)
  end.

(** ** Facts about the list operations *)

Section list_facts.
Implicit Types (e x : ptr) (c : list ptr).

Lemma unlink_subseteq e c : unlink e c ⊆ c.
Proof.
  induction c as [| x c IH]; simpl; [done |].
  case_decide; set_solver.
Qed.

Lemma elem_of_unlink e c x :
  NoDup c → x ∈ unlink e c ↔ x ∈ c ∧ x ≠ e.
Proof.
  induction 1 as [| y c Hy Hc IH]; simpl; [set_solver |].
  case_decide as Heq.
  - subst y. split; [intros Hx | intros [Hx Hne]].
    + split; [set_solver |]. intros ->. contradiction.
    + set_solver.
  - rewrite !elem_of_cons, IH. naive_solver.
Qed.

Lemma NoDup_unlink e c : NoDup c → NoDup (unlink e c).
Proof.
  induction 1 as [| y c Hy Hc IH]; simpl; [constructor |].
  case_decide; [done |].
  constructor; [| done].
  intros Hin. apply Hy. by apply (unlink_subseteq e).
Qed.

Lemma length_unlink e c : e ∈ c → S (length (unlink e c)) = length c.
Proof.
  induction c as [| x c IH]; simpl; [by intros ?%elem_of_nil |].
  intros Hin. case_decide as Heq; [done |].
  simpl. f_equal. apply IH. set_solver.
Qed.

Lemma before_front e x c : e ∉ c → before e (x :: c) = None.
Proof.
  revert x. induction c as [| y c IH]; intros x Hnot; simpl; [done |].
  rewrite decide_False by set_solver.
  apply IH. set_solver.
Qed.

Lemma before_middle e pre post :
  NoDup (pre ++ e :: post) → before e (pre ++ e :: post) = list.last pre.
Proof.
  induction pre as [| x pre IH]; intros Hnd.
  - simpl in *. apply before_front. by apply NoDup_cons_1_1.
  - destruct pre as [| y pre].
    + simpl. by rewrite decide_True.
    + change ((x :: y :: pre) ++ e :: post)
        with (x :: y :: (pre ++ e :: post)) in *.
      rewrite last_cons_cons. simpl before.
      rewrite decide_False.
      * apply IH. by apply NoDup_cons_1_2 in Hnd.
      * intros ->. apply NoDup_cons_1_2, NoDup_cons_1_1 in Hnd.
        set_solver.
Qed.

End list_facts.

(** ** Facts about Go's equality and maps *)

Section gomap_facts.
Implicit Types (g : gomap) (k : any) (e : ptr).

(** Go's [==] holds between a value that is equal to itself and that same
    value, and between nothing else. *)
Lemma go_eq_spec (x y : any) : go_eq x y = true ↔ x = y ∧ go_eq x x = true.
Proof.
  revert y. induction x as [| a | a | | k IHk v IHv]; intros [| b | b | | k' v'];
    simpl; try (split; [done | by intros [? ?]]).
  - rewrite !bool_decide_eq_true. naive_solver.
  - rewrite !bool_decide_eq_true. naive_solver.
  - rewrite !andb_true_iff, (IHk k'), (IHv v'), (IHk k), (IHv v).
    naive_solver.
Qed.

Lemma go_eq_eq (x y : any) : go_eq x y = true → x = y.
Proof. intros H. by apply go_eq_spec in H as [? _]. Qed.

Lemma go_eq_ne (x y : any) : x ≠ y → go_eq x y = false.
Proof.
  intros Hne. destruct (go_eq x y) eqn:H; [| done].
  by apply go_eq_eq in H.
Qed.

Lemma gomap_lookup_Some g k e :
  g !! k = Some e ↔ go_eq k k = true ∧ hits g !! k = Some e.
Proof.
  unfold lookup at 1, gomap_lookup. destruct (go_eq k k); naive_solver.
Qed.

Lemma gomap_lookup_None g k :
  g !! k = None ↔ go_eq k k = false ∨ hits g !! k = None.
Proof.
  unfold lookup at 1, gomap_lookup. destruct (go_eq k k); naive_solver.
Qed.

(** A key that is not equal to itself is never found. *)
Lemma gomap_lookup_irreflexive g k : go_eq k k = false → g !! k = None.
Proof. intros H. apply gomap_lookup_None. by left. Qed.

Lemma gomap_lookup_entries g k e :
  g !! k = Some e → (k, e) ∈ gomap_entries g.
Proof.
  intros [_ H]%gomap_lookup_Some. unfold gomap_entries.
  apply elem_of_app. left. by apply elem_of_map_to_list.
Qed.

Lemma gomap_lookup_insert_eq g k e :
  go_eq k k = true → <[k := e]> g !! k = Some e.
Proof.
  intros H. apply gomap_lookup_Some. split; [done |].
  unfold insert, gomap_insert. rewrite H. simpl. apply lookup_insert_eq.
Qed.

Lemma gomap_lookup_insert_ne g k k' e : k ≠ k' → <[k := e]> g !! k' = g !! k'.
Proof.
  intros Hne. unfold lookup, gomap_lookup, insert, gomap_insert.
  destruct (go_eq k' k'); [| done].
  destruct (go_eq k k); simpl; [| done]. by apply lookup_insert_ne.
Qed.

Lemma gomap_lookup_insert_irreflexive g k k' e :
  go_eq k k = false → <[k := e]> g !! k' = g !! k'.
Proof.
  intros H. unfold lookup, gomap_lookup, insert, gomap_insert. by rewrite H.
Qed.

Lemma gomap_lookup_delete_eq g k : delete k g !! k = None.
Proof.
  unfold lookup, gomap_lookup, delete, gomap_delete.
  destruct (go_eq k k); simpl; [apply lookup_delete_eq | done].
Qed.

Lemma gomap_lookup_delete_ne g k k' : k ≠ k' → delete k g !! k' = g !! k'.
Proof.
  intros Hne. unfold lookup, gomap_lookup, delete, gomap_delete.
  destruct (go_eq k' k'); [| done].
  destruct (go_eq k k); simpl; [| done]. by apply lookup_delete_ne.
Qed.

Lemma gomap_delete_absent g k : g !! k = None → delete k g = g.
Proof.
  intros H. unfold delete, gomap_delete.
  destruct (go_eq k k) eqn:Hk; [| done].
  apply gomap_lookup_None in H as [H | H]; [congruence |].
  destruct g as [h ms]. simpl in *. f_equal. by apply delete_id.
Qed.

Lemma gomap_delete_insert g k e :
  go_eq k k = true → g !! k = None → delete k (<[k := e]> g) = g.
Proof.
  intros Hk H. apply gomap_lookup_None in H as [H | H]; [congruence |].
  unfold delete, gomap_delete, insert, gomap_insert. rewrite Hk. simpl.
  destruct g as [h ms]. simpl in *. f_equal.
  by rewrite delete_insert_eq, delete_id.
Qed.

Lemma gomap_delete_commute g k1 k2 :
  delete k1 (delete k2 g) = delete k2 (delete k1 g).
Proof.
  unfold delete, gomap_delete.
  destruct (go_eq k1 k1), (go_eq k2 k2); simpl; try done.
  f_equal. apply delete_delete.
Qed.

Lemma gomap_misses_insert g k e k' e' :
  (k', e') ∈ misses (<[k := e]> g) →
  (k', e') ∈ misses g ∨ (k' = k ∧ go_eq k k = false).
Proof.
  unfold insert, gomap_insert. destruct (go_eq k k) eqn:Hk; simpl.
  - by left.
  - intros [[= -> ->] | H]%elem_of_cons; [by right | by left].
Qed.

Lemma gomap_misses_delete g k : misses (delete k g) = misses g.
Proof. unfold delete, gomap_delete. by destruct (go_eq k k). Qed.

Lemma gomap_entries_empty : gomap_entries ∅ = [].
Proof. unfold gomap_entries. simpl. by rewrite map_to_list_empty. Qed.

(** Assigning to a key that is not found adds one entry. *)
Lemma gomap_entries_insert g k e :
  g !! k = None → gomap_entries (<[k := e]> g) ≡ₚ (k, e) :: gomap_entries g.
Proof.
  intros H. unfold gomap_entries, insert, gomap_insert.
  destruct (go_eq k k) eqn:Hk; simpl.
  - apply gomap_lookup_None in H as [H | H]; [congruence |].
    by rewrite (map_to_list_insert _ _ _ H).
  - by rewrite Permutation_middle.
Qed.

(** Deleting a key that is found removes its entry. *)
Lemma gomap_entries_delete g k e :
  g !! k = Some e → (k, e) :: gomap_entries (delete k g) ≡ₚ gomap_entries g.
Proof.
  intros [Hk H]%gomap_lookup_Some.
  unfold gomap_entries, delete, gomap_delete. rewrite Hk. simpl.
  by rewrite <- (map_to_list_delete _ _ _ H).
Qed.

End gomap_facts.

(** ** The invariant holds in every reachable state *)

Section invariant.
Implicit Types (m : Map) (k v : any) (e : ptr).

Lemma wf_index m :
  wf m → ∀ k e, mp m !! k = Some e →
  e ∈ chain (dll m) ∧ ∃ v, store (dll m) !! e = Some (Struct k v).
Proof.
  intros Hwf k e Hk. by apply (wf_entries m Hwf), gomap_lookup_entries.
Qed.

Lemma wf_inj m k1 k2 e :
  wf m → mp m !! k1 = Some e → mp m !! k2 = Some e → k1 = k2.
Proof.
  intros Hwf H1 H2.
  destruct (wf_index m Hwf _ _ H1) as [_ [v1 Hv1]].
  destruct (wf_index m Hwf _ _ H2) as [_ [v2 Hv2]].
  congruence.
Qed.

(** An entry of a key that is equal to itself is the one a lookup finds. *)
Lemma wf_entry_lookup m k e :
  wf m → go_eq k k = true → (k, e) ∈ gomap_entries (mp m) →
  mp m !! k = Some e.
Proof.
  intros Hwf Hk [Hin | Hin]%elem_of_app.
  - apply gomap_lookup_Some. split; [done |]. by apply elem_of_map_to_list.
  - pose proof (wf_misses m Hwf _ _ Hin). congruence.
Qed.

Lemma wf_entry_lt m k e :
  wf m → (k, e) ∈ gomap_entries (mp m) → (e < next (dll m))%positive.
Proof.
  intros Hwf Hk.
  destruct (wf_entries m Hwf _ _ Hk) as [_ [v Hv]].
  apply (wf_alloc m Hwf). by rewrite Hv.
Qed.

Lemma wf_next_fresh m : wf m → next (dll m) ∉ chain (dll m).
Proof.
  intros Hwf Hin.
  destruct (wf_nodes m Hwf _ Hin) as [k Hk].
  pose proof (wf_entry_lt m k _ Hwf Hk). lia.
Qed.

Lemma wf_index_lt m k e : wf m → mp m !! k = Some e → (e < next (dll m))%positive.
Proof.
  intros Hwf Hk. by apply (wf_entry_lt m k), gomap_lookup_entries.
Qed.

Lemma wf_New : wf New.
Proof.
  split; simpl; rewrite ?gomap_entries_empty.
  - constructor.
  - intros k e H. by apply elem_of_nil in H.
  - intros e H. by apply elem_of_nil in H.
  - constructor.
  - intros k e H. by apply elem_of_nil in H.
  - intros e [x H]. by rewrite lookup_empty in H.
Qed.

(** Inserting a key that is not found. *)
Lemma wf_insert m k v :
  wf m → mp m !! k = None →
  wf (MkMap (<[k := next (dll m)]> (mp m))
            (PushFront (Struct k v) (dll m)).2).
Proof.
  intros Hwf Hk.
  pose proof (gomap_entries_insert (mp m) k (next (dll m)) Hk) as Hperm.
  split; simpl.
  - constructor; [by apply wf_next_fresh | by apply wf_nodup].
  - intros k' e. rewrite Hperm.
    intros [[= -> ->] | He]%elem_of_cons.
    + split; [by left |]. exists v. by rewrite lookup_insert_eq.
    + destruct (wf_entries m Hwf _ _ He) as [Hin [v' Hv']].
      split; [by right |]. exists v'.
      rewrite lookup_insert_ne; [done |].
      pose proof (wf_entry_lt m k' e Hwf He). lia.
  - intros e [-> | Hin]%elem_of_cons.
    + exists k. rewrite Hperm. by left.
    + destruct (wf_nodes m Hwf _ Hin) as [k' Hk'].
      exists k'. rewrite Hperm. by right.
  - rewrite Hperm. simpl. constructor; [| by apply wf_ptrs].
    intros ([k' e'] & He' & Hin)%list_elem_of_fmap. simpl in He'. subst e'.
    pose proof (wf_entry_lt m k' _ Hwf Hin). lia.
  - intros k' e' [Hin | [-> Hirr]]%gomap_misses_insert; [| done].
    by apply (wf_misses m Hwf k' e').
  - intros e. rewrite lookup_insert. case_decide as Heq.
    + subst e. lia.
    + intros He. pose proof (wf_alloc m Hwf _ He). lia.
Qed.

(** Overwriting the element of a key that is found. *)
Lemma wf_overwrite m k v e :
  wf m → mp m !! k = Some e →
  wf (MkMap (mp m) (SetValue e (Struct k v) (dll m))).
Proof.
  intros Hwf Hk. split; simpl.
  - by apply wf_nodup.
  - intros k' e' He'. destruct (wf_entries m Hwf _ _ He') as [Hin [v' Hv']].
    split; [done |]. rewrite lookup_insert. case_decide as Heq.
    + subst e'. destruct (wf_index m Hwf _ _ Hk) as [_ [v0 Hv0]].
      assert (k' = k) as -> by congruence. by exists v.
    + by exists v'.
  - by apply wf_nodes.
  - by apply wf_ptrs.
  - by apply wf_misses.
  - intros e'. rewrite lookup_insert. case_decide as Heq.
    + subst e'. intros _. by apply (wf_index_lt m k).
    + by apply wf_alloc.
Qed.

(** Removing a key that is found. *)
Lemma wf_remove m k e :
  wf m → mp m !! k = Some e →
  wf (MkMap (delete k (mp m)) (Remove e (dll m))).
Proof.
  intros Hwf Hk. pose proof (wf_nodup m Hwf) as Hnd.
  pose proof (gomap_entries_delete (mp m) k e Hk) as Hperm.
  pose proof (wf_ptrs m Hwf) as Hptrs.
  rewrite <- Hperm in Hptrs. simpl in Hptrs.
  apply list.NoDup_cons in Hptrs as [Hfresh Hptrs].
  assert (∀ k' e', (k', e') ∈ gomap_entries (delete k (mp m)) →
            (k', e') ∈ gomap_entries (mp m) ∧ e' ≠ e) as Hsub.
  { intros k' e' Hin. split; [rewrite <- Hperm; by right |].
    intros ->. apply Hfresh, list_elem_of_fmap. by exists (k', e). }
  split; simpl.
  - by apply NoDup_unlink.
  - intros k' e' [He' Hne]%Hsub.
    destruct (wf_entries m Hwf _ _ He') as [Hin Hv].
    split; [| done]. by apply elem_of_unlink.
  - intros e' [Hin Hne]%elem_of_unlink; [| done].
    destruct (wf_nodes m Hwf _ Hin) as [k' Hk'].
    exists k'. rewrite <- Hperm in Hk'.
    apply elem_of_cons in Hk' as [[= _ ->] | Hk']; [done | done].
  - done.
  - rewrite gomap_misses_delete. by apply wf_misses.
  - by apply wf_alloc.
Qed.

Lemma wf_Put m k v : wf m → wf (Put k v m).
Proof.
  intros Hwf. unfold Put. destruct (mp m !! k) as [e |] eqn:Hk.
  - by apply wf_overwrite.
  - by apply (wf_insert m k v).
Qed.

Lemma wf_GetOrPut m k v : wf m → wf (GetOrPut k v m).2.
Proof.
  intros Hwf. unfold GetOrPut. destruct (mp m !! k) as [e |] eqn:Hk.
  - by apply wf_overwrite.
  - by apply (wf_insert m k v).
Qed.

Lemma wf_Delete m k : wf m → wf (Delete k m).2.
Proof.
  intros Hwf. unfold Delete. destruct (mp m !! k) as [e |] eqn:Hk; [| done].
  by apply wf_remove.
Qed.

Lemma wf_GetAndDelete m k r m' :
  wf m → GetAndDelete k m = Some (r, m') → wf m'.
Proof.
  intros Hwf. unfold GetAndDelete.
  destruct (mp m !! k) as [e |] eqn:Hk.
  - destruct (Value e (Remove e (dll m))); simpl; [| done].
    intros [= _ <-]. by apply wf_remove.
  - by intros [= _ <-].
Qed.

Lemma reachable_wf m : reachable m → wf m.
Proof.
  induction 1 as [| k v m _ IH | k m _ IH | k v m _ IH | k m r m' _ IH Hgd].
  - apply wf_New.
  - by apply wf_Put.
  - by apply wf_Delete.
  - by apply wf_GetOrPut.
  - by apply (wf_GetAndDelete m k r).
Qed.

End invariant.

(** ** Traversals *)

Section traversal.
Implicit Types (m : Map) (k v : any) (e : ptr).

Lemma element_stored m e k v :
  store (dll m) !! e = Some (Struct k v) →
  element e (dll m) = Some (MkMapElement k v).
Proof. intros H. unfold element, Value. by rewrite H. Qed.

Lemma wf_linked m e :
  wf m → e ∈ chain (dll m) →
  ∃ k v, (k, e) ∈ gomap_entries (mp m)
         ∧ store (dll m) !! e = Some (Struct k v).
Proof.
  intros Hwf Hin. destruct (wf_nodes m Hwf _ Hin) as [k Hk].
  destruct (wf_entries m Hwf _ _ Hk) as [_ [v Hv]]. eauto.
Qed.

Lemma entry_of_entries m k e :
  wf m → (k, e) ∈ gomap_entries (mp m) → (entry m e).1 = k.
Proof.
  intros Hwf Hk. destruct (wf_entries m Hwf _ _ Hk) as [_ [v Hv]].
  unfold entry. by rewrite (element_stored m e k v).
Qed.

Lemma entry_indexed m k e :
  wf m → mp m !! k = Some e → (entry m e).1 = k.
Proof.
  intros Hwf Hk. by apply entry_of_entries, gomap_lookup_entries.
Qed.

Lemma visit_linked m e :
  wf m → e ∈ chain (dll m) → visit (dll m) e = Some (entry m e).
Proof.
  intros Hwf Hin. destruct (wf_linked m e Hwf Hin) as (k & v & _ & Hv).
  unfold visit, entry. by rewrite (element_stored m e k v).
Qed.

Lemma mapM_visit m (c : list ptr) :
  wf m → c ⊆ chain (dll m) → mapM (visit (dll m)) c = Some (entry m <$> c).
Proof.
  intros Hwf Hsub. apply mapM_Some_2.
  induction c as [| e c IH]; simpl; constructor.
  - apply visit_linked; [done |]. apply Hsub. by left.
  - apply IH. intros x Hx. apply Hsub. by right.
Qed.

(** The loop, started at the last element of a prefix [pre] of the chain
    with as much fuel as [pre] is long, makes the calls for [pre] backwards. *)
Lemma OrderedRange_loop_prefix (l : List) (pre post : list ptr) :
  chain l = pre ++ post → NoDup (pre ++ post) →
  OrderedRange_loop (length pre) (list.last pre) l
    = mapM (visit l) (reverse pre).
Proof.
  revert post. induction pre as [| e pre IH] using rev_ind; intros post Hc Hnd.
  - done.
  - rewrite last_snoc, reverse_snoc, length_app, Nat.add_comm. simpl.
    rewrite <- (assoc_L (++)) in Hc, Hnd. simpl in Hc, Hnd.
    unfold Prev. rewrite Hc, (before_middle e pre post Hnd).
    rewrite (IH (e :: post) Hc Hnd).
    change (visit l e) with (element e l ≫= λ me, Some (key me, value me)).
    destruct (element e l); simpl; [| done].
    by destruct (mapM _ _).
Qed.

Lemma OrderedRange_mapM m :
  NoDup (chain (dll m)) →
  OrderedRange m = mapM (visit (dll m)) (reverse (chain (dll m))).
Proof.
  intros Hnd. unfold OrderedRange, Back.
  apply (OrderedRange_loop_prefix (dll m) (chain (dll m)) []);
    by rewrite (right_id_L [] (++)).
Qed.

(** With the invariant the traversal completes and reports the entries from
    the back of the list to its front. *)
Lemma OrderedRange_view m : wf m → OrderedRange m = Some (reverse (view m)).
Proof.
  intros Hwf. rewrite OrderedRange_mapM by apply (wf_nodup m Hwf).
  rewrite mapM_visit; [| done |].
  - unfold view. by rewrite fmap_reverse.
  - intros x. by rewrite elem_of_reverse.
Qed.

Lemma Get_absent m k : mp m !! k = None → Get k m = Some ((Nil, false), m).
Proof. intros H. unfold Get. by rewrite H. Qed.

Lemma Get_stored m k e v :
  mp m !! k = Some e → store (dll m) !! e = Some (Struct k v) →
  Get k m = Some ((v, true), m).
Proof.
  intros Hk Hv. unfold Get. rewrite Hk.
  by rewrite (element_stored m e k v).
Qed.

(** Under the invariant [Get] finds exactly the entries of the list whose
    key is equal to itself. *)
Lemma Get_view m k v :
  wf m →
  Get k m = Some ((v, true), m) ↔ go_eq k k = true ∧ (k, v) ∈ view m.
Proof.
  intros Hwf. unfold view. rewrite list_elem_of_fmap. split.
  - unfold Get. destruct (mp m !! k) as [e |] eqn:Hk; [| done].
    destruct (wf_index m Hwf _ _ Hk) as [Hin [v' Hv']].
    rewrite (element_stored m e k v' Hv'). simpl. intros [= <-].
    split; [by apply gomap_lookup_Some in Hk as [? _] |].
    exists e. split; [| done].
    unfold entry. by rewrite (element_stored m e k v' Hv').
  - intros (Hrefl & e & Hkv & Hin).
    destruct (wf_linked m e Hwf Hin) as (k' & v' & Hk' & Hv').
    unfold entry in Hkv. rewrite (element_stored m e k' v' Hv') in Hkv.
    simpl in Hkv. injection Hkv as -> ->.
    apply (Get_stored m k' e); [| done]. by apply wf_entry_lookup.
Qed.

Lemma Get_found_indexed m k v m' :
  Get k m = Some ((v, true), m') → is_Some (mp m !! k).
Proof. unfold Get. destruct (mp m !! k); [eauto | done]. Qed.

End traversal.

(** ** The effect of the writing methods on the entries *)

Section writes.
Implicit Types (m : Map) (k v : any) (e : ptr).

Lemma GetOrPut_state m k v : (GetOrPut k v m).2 = Put k v m.
Proof. unfold GetOrPut, Put. by destruct (mp m !! k). Qed.

Lemma GetOrPut_result m k v :
  (GetOrPut k v m).1 = (v, bool_decide (present k m)).
Proof.
  unfold GetOrPut, present. by destruct (mp m !! k).
Qed.

Lemma not_present m k : ¬ present k m ↔ mp m !! k = None.
Proof. unfold present. by rewrite eq_None_not_Some. Qed.

Lemma present_reflexive m k : present k m → go_eq k k = true.
Proof. intros [e Hk]. by apply gomap_lookup_Some in Hk as [? _]. Qed.

(** The keys that are found are the keys of the list that are equal to
    themselves. *)
Lemma present_view m k :
  wf m → present k m ↔ go_eq k k = true ∧ k ∈ (view m).*1.
Proof.
  intros Hwf. unfold view.
  rewrite <- list_fmap_compose, list_elem_of_fmap. split.
  - intros Hp. split; [by apply (present_reflexive m) |].
    destruct Hp as [e Hk]. exists e. simpl.
    rewrite (entry_indexed m k e Hwf Hk).
    split; [done |]. by apply (wf_index m Hwf k).
  - intros (Hrefl & e & -> & Hin).
    destruct (wf_nodes m Hwf _ Hin) as [k' Hk'].
    simpl in *. rewrite (entry_of_entries m k' e Hwf Hk') in *.
    exists e. by apply wf_entry_lookup.
Qed.

Lemma view_Put_absent m k v :
  wf m → mp m !! k = None → view (Put k v m) = (k, v) :: view m.
Proof.
  intros Hwf Hk. unfold Put. rewrite Hk. unfold view. simpl. f_equal.
  - unfold entry, element, Value. simpl. by rewrite lookup_insert_eq.
  - apply list_fmap_ext. intros i e Hi.
    assert (e ≠ next (dll m)) as Hne.
    { intros ->. apply (wf_next_fresh m Hwf).
      by apply list_elem_of_lookup_2 in Hi. }
    unfold entry, element, Value. simpl. by rewrite lookup_insert_ne.
Qed.

Lemma view_Put_present m k v :
  wf m → present k m → view (Put k v m) = overwrite k v <$> view m.
Proof.
  intros Hwf [e Hk]. unfold Put. rewrite Hk. unfold view. simpl.
  rewrite <- list_fmap_compose. apply list_fmap_ext. intros i e' Hi.
  apply list_elem_of_lookup_2 in Hi.
  destruct (wf_linked m e' Hwf Hi) as (k' & v' & Hk' & Hv').
  assert (entry m e' = (k', v')) as Hent.
  { unfold entry. by rewrite (element_stored m e' k' v' Hv'). }
  unfold compose. rewrite Hent. unfold overwrite. simpl.
  unfold entry, element, Value. simpl. rewrite lookup_insert.
  destruct (decide (e = e')) as [<- | Hne].
  - destruct (wf_index m Hwf _ _ Hk) as [_ [v0 Hv0]].
    assert (k' = k) as -> by congruence.
    by rewrite decide_True.
  - rewrite Hv'. simpl. rewrite decide_False; [done |].
    intros ->. apply Hne.
    assert (mp m !! k = Some e') as Hk''; [| congruence].
    apply wf_entry_lookup; [done | | done].
    by apply gomap_lookup_Some in Hk as [? _].
Qed.

Lemma chain_Put_present m k v :
  present k m → chain (dll (Put k v m)) = chain (dll m).
Proof. intros [e Hk]. unfold Put. by rewrite Hk. Qed.

Lemma chain_Put_absent m k v :
  mp m !! k = None →
  chain (dll (Put k v m)) = next (dll m) :: chain (dll m).
Proof. intros Hk. unfold Put. by rewrite Hk. Qed.

Lemma overwrite_fst k v (kvs : list (any * any)) :
  (overwrite k v <$> kvs).*1 = kvs.*1.
Proof.
  rewrite <- list_fmap_compose. apply list_fmap_ext. intros i kv _.
  unfold compose, overwrite. case_decide; simpl; congruence.
Qed.

Lemma overwrite_key k v (kv : any * any) : (overwrite k v kv).1 = kv.1.
Proof. unfold overwrite. by case_decide. Qed.

Lemma overwrite_other k v (kv : any * any) : kv.1 ≠ k → overwrite k v kv = kv.
Proof. intros Hne. unfold overwrite. by rewrite decide_False. Qed.

Lemma overwrite_others k v (kvs : list (any * any)) :
  filter (λ kv, kv.1 ≠ k) (overwrite k v <$> kvs)
    = filter (λ kv, kv.1 ≠ k) kvs.
Proof.
  induction kvs as [| kv kvs IH]; [done |].
  rewrite fmap_cons. destruct (decide (kv.1 = k)) as [Heq | Hne].
  - rewrite !filter_cons_False; [done | tauto |].
    rewrite overwrite_key. tauto.
  - rewrite (overwrite_other k v kv Hne), !filter_cons_True by done.
    by rewrite IH.
Qed.

Lemma wf_Puts kvs m : wf m → wf (Puts kvs m).
Proof.
  revert m. induction kvs as [| kv kvs IH]; intros m Hwf; [done |].
  apply IH. by apply wf_Put.
Qed.

Lemma Puts_snoc kvs k v m : Puts (kvs ++ [(k, v)]) m = Put k v (Puts kvs m).
Proof. unfold Puts. by rewrite foldl_app. Qed.

(** After [Put]s of distinct keys on the empty map the list holds the
    entries with the latest at the front. *)
Lemma view_Puts kvs : NoDup kvs.*1 → view (Puts kvs New) = reverse kvs.
Proof.
  induction kvs as [| [k v] kvs IH] using rev_ind; intros Hnd; [done |].
  rewrite fmap_app in Hnd. apply list.NoDup_app in Hnd as (Hnd & Hfresh & _).
  pose proof (wf_Puts kvs New wf_New) as Hwf.
  rewrite Puts_snoc, reverse_snoc, view_Put_absent, IH; [done.. |].
  apply not_present. rewrite (present_view _ _ Hwf), IH by done.
  rewrite fmap_reverse, elem_of_reverse. intros [_ Hin].
  apply (Hfresh k Hin). simpl. by left.
Qed.

End writes.

(** ** The index and the list hold the same entries *)

Section bijection.
Implicit Types (m : Map) (k v : any) (e : ptr).

Lemma mapM_total {A B} (f : A → option B) (h : A → B) (l : list A) :
  (∀ x, x ∈ l → f x = Some (h x)) → mapM f l = Some (h <$> l).
Proof.
  intros Hf. apply mapM_Some_2.
  induction l as [| x l IH]; simpl; constructor.
  - apply Hf. by left.
  - apply IH. intros y Hy. apply Hf. by right.
Qed.

Lemma filter_none {A} (P : A → Prop) `{!∀ x, Decision (P x)} (l : list A) :
  (∀ x, x ∈ l → ¬ P x) → filter P l = [].
Proof.
  induction l as [| x l IH]; intros HP; [done |].
  rewrite filter_cons_False by (apply HP; by left).
  apply IH. intros y Hy. apply HP. by right.
Qed.

(** The pointers of the index are the linked elements, each once. *)
Lemma index_chain m : wf m → (gomap_entries (mp m)).*2 ≡ₚ chain (dll m).
Proof.
  intros Hwf. apply NoDup_Permutation.
  - by apply wf_ptrs.
  - by apply wf_nodup.
  - intros e. rewrite list_elem_of_fmap. split.
    + intros ([k e'] & -> & Hin). by apply (wf_entries m Hwf k).
    + intros Hin. destruct (wf_nodes m Hwf _ Hin) as [k Hk].
      by exists (k, e).
Qed.

(** The entries of the list that belong to the entries of the index. *)
Lemma index_view m :
  wf m → (entry m ∘ snd) <$> gomap_entries (mp m) ≡ₚ view m.
Proof.
  intros Hwf. unfold view. by rewrite list_fmap_compose, (index_chain m Hwf).
Qed.

(** The keys of the list are the keys of the entries of the index. *)
Lemma view_keys m : wf m → (view m).*1 ≡ₚ (gomap_entries (mp m)).*1.
Proof.
  intros Hwf. rewrite <- (index_view m Hwf), <- list_fmap_compose.
  assert ((fst ∘ (entry m ∘ snd)) <$> gomap_entries (mp m)
          = (gomap_entries (mp m)).*1) as ->; [| done].
  apply list_fmap_ext. intros i [k e] Hi%list_elem_of_lookup_2. simpl.
  by apply entry_of_entries.
Qed.

(** A key that is equal to itself stands in the list at most once. *)
Lemma NoDup_view_keys m :
  wf m → NoDup (filter (λ k, go_eq k k = true) (view m).*1).
Proof.
  intros Hwf. rewrite (view_keys m Hwf). unfold gomap_entries.
  rewrite fmap_app, list.filter_app, (filter_none _ (misses (mp m)).*1).
  - rewrite (right_id_L [] (++)).
    apply list.NoDup_filter, NoDup_fst_map_to_list.
  - intros k ([k' e] & -> & Hin)%list_elem_of_fmap. simpl.
    by rewrite (wf_misses m Hwf k' e Hin).
Qed.

Lemma Length_size m : wf m → Length m = Z.of_nat (size (mp m)).
Proof.
  intros Hwf. unfold Length, Len, size, gomap_size. f_equal.
  by rewrite <- (index_chain m Hwf), length_fmap.
Qed.

(** Whatever enumeration of the index [UnorderedRange] takes, the calls it
    makes are defined and are the entries of the enumerated pointers. *)
Lemma UnorderedRange_entries m (entries : list (any * ptr)) :
  wf m → entries ≡ₚ gomap_entries (mp m) →
  mapM (λ kv, me ← element kv.2 (dll m); Some (kv.1, value me)) entries
    = Some ((entry m ∘ snd) <$> entries).
Proof.
  intros Hwf Hperm. apply mapM_total. intros [k e] Hin.
  rewrite Hperm in Hin.
  destruct (wf_entries m Hwf _ _ Hin) as [_ [v Hv]].
  unfold compose, entry. simpl. by rewrite (element_stored m e k v Hv).
Qed.

Lemma UnorderedRange_view m ucalls :
  wf m → UnorderedRange m ucalls → ucalls ≡ₚ view m.
Proof.
  intros Hwf (entries & Hperm & Hcalls).
  rewrite (UnorderedRange_entries m entries Hwf Hperm) in Hcalls.
  injection Hcalls as <-.
  by rewrite Hperm, (index_view m Hwf).
Qed.

Lemma UnorderedRange_total m : wf m → ∃ ucalls, UnorderedRange m ucalls.
Proof.
  intros Hwf. exists ((entry m ∘ snd) <$> gomap_entries (mp m)).
  exists (gomap_entries (mp m)). split; [done |].
  by apply UnorderedRange_entries.
Qed.

End bijection.

(** ** Reading and removing *)

Section removal.
Implicit Types (m : Map) (k v : any) (e : ptr).

Lemma Get_after_Put m k v :
  go_eq k k = true → Get k (Put k v m) = Some ((v, true), Put k v m).
Proof.
  intros Hrefl. unfold Put. destruct (mp m !! k) as [e |] eqn:Hk; simpl.
  - apply (Get_stored _ k e v); simpl; [done |]. by rewrite lookup_insert_eq.
  - apply (Get_stored _ k (next (dll m)) v); simpl.
    + by apply gomap_lookup_insert_eq.
    + by rewrite lookup_insert_eq.
Qed.

(** A key that is not equal to itself is not found, whatever was put. *)
Lemma Get_irreflexive m k :
  go_eq k k = false → Get k m = Some ((Nil, false), m).
Proof. intros H. by apply Get_absent, gomap_lookup_irreflexive. Qed.

Lemma Get_state m k r m' : Get k m = Some (r, m') → m' = m.
Proof.
  unfold Get. destruct (mp m !! k) as [e |]; [| by intros [= _ <-]].
  destruct (element e (dll m)); simpl; [by intros [= _ <-] | done].
Qed.

(** In a state that satisfies the invariant [Get] does not panic. *)
Lemma Get_total m k : wf m → ∃ r, Get k m = Some (r, m).
Proof.
  intros Hwf. destruct (mp m !! k) as [e |] eqn:Hk.
  - destruct (wf_index m Hwf _ _ Hk) as [_ [v Hv]].
    exists (v, true). by apply (Get_stored m k e).
  - exists (Nil, false). by apply Get_absent.
Qed.

(** [Put k v] leaves what [Get] reports for every other key. *)
Lemma Get_Put_other m k v k' :
  wf m → k' ≠ k → fst <$> Get k' (Put k v m) = fst <$> Get k' m.
Proof.
  intros Hwf Hne. unfold Put, Get.
  destruct (mp m !! k) as [e |] eqn:Hk; simpl.
  - destruct (mp m !! k') as [e' |] eqn:Hk'; [| done].
    assert (e ≠ e') as Hee by (intros <-; by apply Hne, (wf_inj m k' k e)).
    unfold element, Value. simpl. rewrite lookup_insert_ne by done.
    by destruct (store (dll m) !! e' ≫= assert_mapElement).
  - rewrite gomap_lookup_insert_ne by done.
    destruct (mp m !! k') as [e' |] eqn:Hk'; [| done].
    pose proof (wf_index_lt m k' e' Hwf Hk') as Hlt.
    unfold element, Value. simpl. rewrite lookup_insert_ne by lia.
    by destruct (store (dll m) !! e' ≫= assert_mapElement).
Qed.

Lemma Length_Put_absent m k v :
  mp m !! k = None → Length (Put k v m) = Length m + 1.
Proof.
  intros Hk. unfold Length, Len. rewrite (chain_Put_absent m k v Hk).
  simpl length. lia.
Qed.

Lemma Length_Put_present m k v :
  present k m → Length (Put k v m) = Length m.
Proof.
  intros Hk. unfold Length, Len. by rewrite (chain_Put_present m k v Hk).
Qed.

Lemma Length_remove m k e :
  wf m → mp m !! k = Some e →
  Length (MkMap (delete k (mp m)) (Remove e (dll m))) = Length m - 1.
Proof.
  intros Hwf Hk. destruct (wf_index m Hwf _ _ Hk) as [Hin _].
  unfold Length, Len. simpl.
  pose proof (length_unlink e (chain (dll m)) Hin). lia.
Qed.

Lemma unlinked m k e :
  wf m → mp m !! k = Some e → e ∉ chain (Remove e (dll m)).
Proof.
  intros Hwf Hk. simpl. rewrite elem_of_unlink by apply (wf_nodup m Hwf).
  tauto.
Qed.

(** What [GetAndDelete] does for a key [Get] finds with value [v]: the
    result is the whole stored element, not [v]. *)
Lemma GetAndDelete_present m k v :
  wf m → Get k m = Some ((v, true), m) →
  ∃ m', GetAndDelete k m = Some ((Struct k v, true), m')
        ∧ ¬ present k m' ∧ Length m' = Length m - 1.
Proof.
  intros Hwf Hget. unfold Get in Hget. unfold GetAndDelete.
  destruct (mp m !! k) as [e |] eqn:Hk; [| done].
  destruct (wf_index m Hwf _ _ Hk) as [_ [v' Hv']].
  rewrite (element_stored m e k v' Hv') in Hget. simpl in Hget.
  injection Hget as <-.
  unfold Value. simpl. rewrite Hv'. simpl. eexists. split; [done |].
  split; [| by apply Length_remove].
  apply not_present. simpl. apply gomap_lookup_delete_eq.
Qed.

Lemma GetAndDelete_total m k : wf m → is_Some (GetAndDelete k m).
Proof.
  intros Hwf. unfold GetAndDelete. destruct (mp m !! k) as [e |] eqn:Hk; [| done].
  destruct (wf_index m Hwf _ _ Hk) as [_ [v Hv]].
  unfold Value. simpl. by rewrite Hv.
Qed.

Lemma GetAndDelete_absent m k :
  ¬ present k m → GetAndDelete k m = Some ((Nil, false), m).
Proof. intros Hk%not_present. unfold GetAndDelete. by rewrite Hk. Qed.

(** A stored element is never the value it carries. *)
Lemma Struct_neq_value k v : Struct k v ≠ v.
Proof.
  revert k. induction v as [| | | | k' IHk v' IHv]; intros k; try done.
  intros [= _ H]. by apply (IHv k').
Qed.

End removal.

(** ** The example of the specification *)

Lemma reachable_example_puts : reachable example_puts.
Proof. unfold example_puts. do 3 apply reachable_Put. apply reachable_New. Qed.

(** ** Properties of the methods *)

(** C1.  [GetAndDelete] on a present key is claimed to return the value that
    was stored for the key.  On the map obtained by [Put("b", 2)] on the
    empty map, [Get("b")] reports the stored value [2], while
    [GetAndDelete("b")] returns the element [mapElement{"b", 2}] itself:
    the method returns [e.Value] without the projection [.value] that [Get]
    applies. *)
Example GetAndDelete_returns_element :
  fst <$> Get (Str "b") (Put (Str "b") (Int 2) New) = Some (Int 2, true)
  ∧ fst <$> GetAndDelete (Str "b") (Put (Str "b") (Int 2) New)
      = Some (Struct (Str "b") (Int 2), true)
  ∧ Struct (Str "b") (Int 2) ≠ Int 2.
Proof. split; [| split]; [by vm_compute.. | done]. Qed.

(** C2, as written, fails: after [Put("a",1); Put("b",2)] the first call is
    for ["a"], the key inserted first. *)
Lemma OrderedRange_not_reverse : ¬ reverse_insertion_order.
Proof.
  intros H.
  specialize (H [(Str "a", Int 1); (Str "b", Int 2)]).
  assert (NoDup [(Str "a", Int 1); (Str "b", Int 2)].*1) as Hnd.
  { apply (bool_decide_unpack _). by vm_compute. }
  specialize (H Hnd). vm_compute in H. discriminate H.
Qed.

(** C2, amended.  For every sequence of [Put] operations with distinct keys
    on the empty map, [OrderedRange] invokes the callback once per entry in
    exactly the insertion order: the least recently inserted key is visited
    first and the most recently inserted key last. *)
Theorem OrderedRange_insertion_order (kvs : list (any * any)) :
  NoDup kvs.*1 → OrderedRange (Puts kvs New) = Some kvs.
Proof.
  intros Hnd.
  rewrite OrderedRange_view by apply wf_Puts, wf_New.
  by rewrite (view_Puts kvs Hnd), reverse_involutive.
Qed.

Lemma OrderedRange_insertion_order_witness :
  NoDup [(Str "x", Int 1); (Int 5, Nil); (Nil, Str "z")].*1
  ∧ OrderedRange (Puts [(Str "x", Int 1); (Int 5, Nil); (Nil, Str "z")] New)
      = Some [(Str "x", Int 1); (Int 5, Nil); (Nil, Str "z")].
Proof.
  assert (NoDup [(Str "x", Int 1); (Int 5, Nil); (Nil, Str "z")].*1) as Hnd.
  { apply (bool_decide_unpack _). vm_compute. exact I. }
  split; [exact Hnd |].
  exact (OrderedRange_insertion_order _ Hnd).
Defined.

(** C3, as written, fails for a key that is not equal to itself: after
    [GetOrPut(NaN, 1)] on the empty map, [Get(NaN)] returns nil and [false],
    not [1]; the lookup [m.mp[key]] compares keys with [==]. *)
Lemma GetOrPut_every_key_fails : ¬ GetOrPut_every_key.
Proof.
  intros H.
  destruct (H New NaN (Int 1) reachable_New) as (_ & _ & _ & Hget).
  vm_compute in Hget. discriminate Hget.
Qed.

(** C3, amended.  [GetOrPut(k, v)] on an absent key adds the entry [(k, v)]
    at the front of the list and returns [(v, false)]; on a present key it
    replaces the stored value by [v], in place, and returns [(v, true)].
    In both cases the value returned is the argument [v].  For a key that
    is equal to itself ([k == k]) a following [Get(k)] returns [(v, true)];
    a key that is not equal to itself is not found by the following
    [Get(k)]. *)
Theorem GetOrPut_spec (m : Map) (k v : any) :
  reachable m →
  (¬ present k m →
     (GetOrPut k v m).1 = (v, false)
     ∧ view (GetOrPut k v m).2 = (k, v) :: view m)
  ∧ (present k m →
     (GetOrPut k v m).1 = (v, true)
     ∧ view (GetOrPut k v m).2 = overwrite k v <$> view m)
  ∧ (GetOrPut k v m).1.1 = v
  ∧ (go_eq k k = true →
     fst <$> Get k (GetOrPut k v m).2 = Some (v, true))
  ∧ (go_eq k k = false →
     fst <$> Get k (GetOrPut k v m).2 = Some (Nil, false)).
Proof.
  intros Hwf%reachable_wf.
  rewrite GetOrPut_state, GetOrPut_result.
  split; [| split; [| split; [done |]]].
  - intros Hk. split; [by rewrite bool_decide_eq_false_2 |].
    by apply view_Put_absent, not_present.
  - intros Hk. split; [by rewrite bool_decide_eq_true_2 |].
    by apply view_Put_present.
  - split; intros Hrefl.
    + by rewrite Get_after_Put.
    + by rewrite Get_irreflexive.
Qed.

Lemma GetOrPut_spec_witness :
  reachable example_puts
  ∧ present (Str "b") example_puts
  ∧ go_eq (Str "b") (Str "b") = true
  ∧ ((GetOrPut (Str "b") (Int 9) example_puts).1 = (Int 9, true)
     ∧ view (GetOrPut (Str "b") (Int 9) example_puts).2
         = overwrite (Str "b") (Int 9) <$> view example_puts)
  ∧ fst <$> Get (Str "b") (GetOrPut (Str "b") (Int 9) example_puts).2
      = Some (Int 9, true).
Proof.
  assert (present (Str "b") example_puts) as Hp by (vm_compute; eauto).
  assert (go_eq (Str "b") (Str "b") = true) as Hrefl by reflexivity.
  split; [apply reachable_example_puts |]. split; [exact Hp |].
  split; [exact Hrefl |].
  destruct (GetOrPut_spec example_puts (Str "b") (Int 9)
              reachable_example_puts) as (_ & Hpresent & _ & Hget & _).
  split; [exact (Hpresent Hp) | exact (Hget Hrefl)].
Defined.

(** C4.  The example [Put("a",1); Put("b",2); Put("a",3)] on the empty map:
    [Length()] is 2 and [OrderedRange] calls [("a",3)] and then [("b",2)].
    The following [GetAndDelete("b")] leaves [Length()] at 1 and reports
    [true], but the value it returns is the element [mapElement{"b", 2}]
    and not the claimed [2]. *)
Example example_puts_trace :
  Length example_puts = 2
  ∧ OrderedRange example_puts
      = Some [(Str "a", Int 3); (Str "b", Int 2)]
  ∧ fst <$> GetAndDelete (Str "b") example_puts
      = Some (Struct (Str "b") (Int 2), true)
  ∧ Length ∘ snd <$> GetAndDelete (Str "b") example_puts = Some 1
  ∧ fst <$> GetAndDelete (Str "b") example_puts ≠ Some (Int 2, true).
Proof. repeat split; by vm_compute. Qed.

(** C5.  [Put(k, v)] on a present key overwrites the stored value in place,
    whatever [v] is: the linked elements and their order are the same, so
    [OrderedRange] makes its calls for the same keys at the same positions
    and only the value passed for [k] changes.  [Put] on an absent key is
    what creates a position, at the front of the list. *)
Theorem Put_keeps_position (m : Map) (k v : any) :
  reachable m →
  (present k m →
     chain (dll (Put k v m)) = chain (dll m)
     ∧ view (Put k v m) = overwrite k v <$> view m
     ∧ ∃ calls,
         OrderedRange m = Some calls
         ∧ OrderedRange (Put k v m) = Some (overwrite k v <$> calls)
         ∧ (overwrite k v <$> calls).*1 = calls.*1)
  ∧ (¬ present k m →
     chain (dll (Put k v m)) = next (dll m) :: chain (dll m)
     ∧ view (Put k v m) = (k, v) :: view m).
Proof.
  intros Hwf%reachable_wf. split.
  - intros Hk. split; [by apply chain_Put_present |].
    split; [by apply view_Put_present |].
    exists (reverse (view m)). split; [by apply OrderedRange_view |].
    split; [| apply overwrite_fst].
    rewrite OrderedRange_view by (by apply wf_Put).
    by rewrite view_Put_present, fmap_reverse.
  - intros Hk%not_present.
    split; [by apply chain_Put_absent | by apply view_Put_absent].
Qed.

Lemma Put_keeps_position_witness :
  reachable example_puts
  ∧ present (Str "a") example_puts
  ∧ chain (dll (Put (Str "a") (Int 3) example_puts))
      = chain (dll example_puts).
Proof.
  assert (present (Str "a") example_puts) as Hp by (vm_compute; eauto).
  split; [apply reachable_example_puts |]. split; [exact Hp |].
  destruct (Put_keeps_position example_puts (Str "a") (Int 3)
              reachable_example_puts) as [Hpresent _].
  exact (proj1 (Hpresent Hp)).
Defined.

(** C6, as written, fails for a key that is not equal to itself: [Get(NaN)]
    right after [Put(NaN, 1)] on the empty map returns nil and [false]; the
    lookup [m.mp[key]] compares keys with [==]. *)
Lemma Get_every_key_fails : ¬ Get_every_key.
Proof.
  intros H. destruct (H New NaN (Int 1)) as [Hget _].
  vm_compute in Hget. discriminate Hget.
Qed.

(** C6, amended.  For a key that is equal to itself ([k == k]), [Get(k)]
    right after [Put(k, v)] returns [(v, true)]; a key that is not equal to
    itself is not found.  [Get(k)] for a key that is not present returns the
    nil value with [false]; and in every case the state [Get] leaves is the
    state it was called in. *)
Theorem Get_spec (m : Map) (k v : any) :
  (go_eq k k = true → Get k (Put k v m) = Some ((v, true), Put k v m))
  ∧ (go_eq k k = false →
     Get k (Put k v m) = Some ((Nil, false), Put k v m))
  ∧ (¬ present k m → Get k m = Some ((Nil, false), m))
  ∧ (∀ r m', Get k m = Some (r, m') → m' = m)
  ∧ (reachable m → ∃ r, Get k m = Some (r, m)).
Proof.
  split; [apply Get_after_Put |]. split; [apply Get_irreflexive |].
  split; [| split].
  - intros Hk%not_present. by apply Get_absent.
  - apply Get_state.
  - intros Hwf%reachable_wf. by apply Get_total.
Qed.

Lemma Get_spec_witness :
  go_eq (Int 4) (Int 4) = true
  ∧ ¬ present (Int 4) example_puts
  ∧ Get (Int 4) (Put (Int 4) Nil example_puts)
      = Some ((Nil, true), Put (Int 4) Nil example_puts)
  ∧ Get (Int 4) example_puts = Some ((Nil, false), example_puts).
Proof.
  assert (go_eq (Int 4) (Int 4) = true) as Hrefl by reflexivity.
  assert (¬ present (Int 4) example_puts) as Hp.
  { apply not_present. vm_compute. reflexivity. }
  split; [exact Hrefl |]. split; [exact Hp |].
  destruct (Get_spec example_puts (Int 4) Nil) as (Hput & _ & Habsent & _).
  split; [exact (Hput Hrefl) | exact (Habsent Hp)].
Defined.

(** C7.  [Delete(k)] returns [true] exactly when [k] is present.  It then
    unlinks the element of [k] from the list and removes [k] from the
    index, a following [Get(k)] finds nothing, and [Length()] is smaller by
    exactly 1.  For an absent key it returns [false] and the state is the
    one it was called in. *)
Theorem Delete_spec (m : Map) (k : any) :
  reachable m →
  ((Delete k m).1 = true ↔ present k m)
  ∧ (present k m →
     ¬ present k (Delete k m).2
     ∧ (∀ e, mp m !! k = Some e → e ∉ chain (dll (Delete k m).2))
     ∧ ¬ (k ∈ (view (Delete k m).2).*1)
     ∧ Get k (Delete k m).2 = Some ((Nil, false), (Delete k m).2)
     ∧ Length (Delete k m).2 = Length m - 1)
  ∧ (¬ present k m → Delete k m = (false, m)).
Proof.
  intros Hwf%reachable_wf.
  pose proof (wf_Delete m k Hwf) as Hwf'.
  destruct (mp m !! k) as [e |] eqn:Hk.
  - assert (present k m) as Hp by (by exists e).
    assert (Delete k m = (true, MkMap (delete k (mp m)) (Remove e (dll m))))
      as Hdel by (unfold Delete; by rewrite Hk).
    rewrite Hdel in *. simpl in *.
    assert (¬ present k (MkMap (delete k (mp m)) (Remove e (dll m)))) as Hgone.
    { apply not_present. simpl. apply gomap_lookup_delete_eq. }
    split; [done |]. split; [| done].
    intros _. split; [done |]. split.
    { intros e' [= <-]. by apply (unlinked m k). }
    split.
    { intros Hin. apply Hgone, present_view; [done |].
      split; [by apply (present_reflexive m) | done]. }
    split; [by apply Get_absent, not_present | by apply Length_remove].
  - assert (¬ present k m) as Hn by (by apply not_present).
    assert (Delete k m = (false, m)) as Hdel by (unfold Delete; by rewrite Hk).
    rewrite Hdel. simpl. split; [split; [done | tauto] |].
    split; [tauto | done].
Qed.

Lemma Delete_spec_witness :
  reachable example_puts
  ∧ present (Str "a") example_puts
  ∧ Length (Delete (Str "a") example_puts).2 = Length example_puts - 1.
Proof.
  assert (present (Str "a") example_puts) as Hp by (vm_compute; eauto).
  split; [apply reachable_example_puts |]. split; [exact Hp |].
  destruct (Delete_spec example_puts (Str "a") reachable_example_puts)
    as (_ & Hpresent & _).
  apply (Hpresent Hp).
Defined.

(** C8.  In every state reached from [New()] the entries of the index and
    the linked elements of the list are in bijection: an entry points to one
    linked element, which stores the key of the entry; every linked element
    is the one of an entry; two entries never share an element; no element
    is linked twice.  A lookup finds exactly the entries whose key is equal
    to itself, and such a key has one entry.  So [OrderedRange] completes
    with one call per entry of the index, every enumeration
    [UnorderedRange] takes makes the same calls up to their order, and
    [Length()] is the number of entries of the index. *)
Theorem index_list_bijection (m : Map) :
  reachable m →
  (∀ k e, mp m !! k = Some e →
     e ∈ chain (dll m) ∧ ∃ v, element e (dll m) = Some (MkMapElement k v))
  ∧ (∀ k e, (k, e) ∈ gomap_entries (mp m) →
     e ∈ chain (dll m) ∧ ∃ v, element e (dll m) = Some (MkMapElement k v))
  ∧ (∀ e, e ∈ chain (dll m) → ∃ k, (k, e) ∈ gomap_entries (mp m))
  ∧ (∀ k e,
       mp m !! k = Some e
       ↔ go_eq k k = true ∧ (k, e) ∈ gomap_entries (mp m))
  ∧ (∀ k1 k2 e, mp m !! k1 = Some e → mp m !! k2 = Some e → k1 = k2)
  ∧ NoDup (gomap_entries (mp m)).*2
  ∧ NoDup (chain (dll m))
  ∧ (∃ calls,
       OrderedRange m = Some calls
       ∧ calls.*1 ≡ₚ (gomap_entries (mp m)).*1
       ∧ NoDup (filter (λ k, go_eq k k = true) calls.*1)
       ∧ (∀ k, present k m ↔ go_eq k k = true ∧ k ∈ calls.*1)
       ∧ (∀ k v,
            Get k m = Some ((v, true), m)
            ↔ go_eq k k = true ∧ (k, v) ∈ calls)
       ∧ (∃ ucalls, UnorderedRange m ucalls)
       ∧ (∀ ucalls, UnorderedRange m ucalls → ucalls ≡ₚ calls)
       ∧ Length m = Z.of_nat (length calls))
  ∧ Length m = Z.of_nat (size (mp m)).
Proof.
  intros Hwf%reachable_wf.
  assert (∀ k e, (k, e) ∈ gomap_entries (mp m) →
     e ∈ chain (dll m) ∧ ∃ v, element e (dll m) = Some (MkMapElement k v))
    as Hentries.
  { intros k e Hk. destruct (wf_entries m Hwf _ _ Hk) as [Hin [v Hv]].
    split; [done |]. exists v. by apply element_stored. }
  split; [intros k e Hk; by apply Hentries, gomap_lookup_entries |].
  split; [done |].
  split; [by apply wf_nodes |].
  split.
  { intros k e. split.
    - intros Hk. split; [by apply gomap_lookup_Some in Hk as [? _] |].
      by apply gomap_lookup_entries.
    - intros [Hrefl Hk]. by apply wf_entry_lookup. }
  split; [intros k1 k2 e; by apply wf_inj |].
  split; [by apply wf_ptrs |].
  split; [by apply wf_nodup |].
  split; [| by apply Length_size].
  exists (reverse (view m)). split; [by apply OrderedRange_view |].
  split.
  { by rewrite fmap_reverse, reverse_Permutation, view_keys. }
  split.
  { rewrite fmap_reverse, reverse_Permutation. by apply NoDup_view_keys. }
  split.
  { intros k. by rewrite fmap_reverse, elem_of_reverse, present_view. }
  split.
  { intros k v. by rewrite elem_of_reverse, Get_view. }
  split; [by apply UnorderedRange_total |]. split.
  - intros ucalls Hu. rewrite reverse_Permutation.
    by apply UnorderedRange_view.
  - unfold Length, Len, view. by rewrite length_reverse, length_fmap.
Qed.

Lemma index_list_bijection_witness :
  reachable example_puts
  ∧ Length example_puts = Z.of_nat (size (mp example_puts)).
Proof.
  split; [apply reachable_example_puts |].
  apply (index_list_bijection example_puts reachable_example_puts).
Defined.

(** C10.  [Put(k, v)] and [GetOrPut(k, v)] make [Length()] larger by exactly
    1 when [k] is absent and leave it as it is when [k] is present; neither
    removes or changes the entry of another key: [Get] reports the same for
    every other key, and the other entries of the list are the same, in the
    same order. *)
Theorem Put_GetOrPut_frame (m : Map) (k v : any) :
  reachable m →
  (¬ present k m →
     Length (Put k v m) = Length m + 1
     ∧ Length (GetOrPut k v m).2 = Length m + 1)
  ∧ (present k m →
     Length (Put k v m) = Length m
     ∧ Length (GetOrPut k v m).2 = Length m)
  ∧ (∀ k', k' ≠ k →
     fst <$> Get k' (Put k v m) = fst <$> Get k' m
     ∧ fst <$> Get k' (GetOrPut k v m).2 = fst <$> Get k' m)
  ∧ filter (λ kv, kv.1 ≠ k) (view (Put k v m))
      = filter (λ kv, kv.1 ≠ k) (view m)
  ∧ filter (λ kv, kv.1 ≠ k) (view (GetOrPut k v m).2)
      = filter (λ kv, kv.1 ≠ k) (view m).
Proof.
  intros Hwf%reachable_wf. rewrite GetOrPut_state.
  assert (filter (λ kv, kv.1 ≠ k) (view (Put k v m))
            = filter (λ kv, kv.1 ≠ k) (view m)) as Hothers.
  { destruct (decide (present k m)) as [Hk | Hk].
    - rewrite view_Put_present by done. apply overwrite_others.
    - rewrite view_Put_absent; [| done | by apply not_present].
      rewrite filter_cons_False; [done |]. simpl. tauto. }
  split; [| split; [| split; [| done]]].
  - intros Hk%not_present. split; by apply Length_Put_absent.
  - intros Hk. split; by apply Length_Put_present.
  - intros k' Hne. split; by apply Get_Put_other.
Qed.

Lemma Put_GetOrPut_frame_witness :
  reachable example_puts
  ∧ ¬ present (Int 4) example_puts
  ∧ Length (Put (Int 4) Nil example_puts) = Length example_puts + 1
  ∧ Length (GetOrPut (Int 4) Nil example_puts).2 = Length example_puts + 1.
Proof.
  assert (¬ present (Int 4) example_puts) as Hp.
  { apply not_present. vm_compute. reflexivity. }
  split; [apply reachable_example_puts |]. split; [exact Hp |].
  destruct (Put_GetOrPut_frame example_puts (Int 4) Nil
              reachable_example_puts) as [Habsent _].
  exact (Habsent Hp).
Defined.

(** ** Further properties: removal *)

Section more_list_facts.
Import container_list.

Lemma filter_all {A} (P : A → Prop) `{!∀ x, Decision (P x)} (l : list A) :
  (∀ x, x ∈ l → P x) → filter P l = l.
Proof.
  induction l as [| x l IH]; intros HP; [done |].
  rewrite filter_cons_True by (apply HP; by left).
  f_equal. apply IH. intros y Hy. apply HP. by right.
Qed.

Lemma fmap_unlink {B} (f : ptr → B) (P : B → Prop) `{!∀ x, Decision (P x)}
    (e : ptr) (c : list ptr) :
  NoDup c → (∀ x, x ∈ c → P (f x) ↔ x ≠ e) →
  f <$> unlink e c = filter P (f <$> c).
Proof.
  induction 1 as [| x c Hx Hnd IH]; intros HP; [done |].
  simpl unlink. rewrite fmap_cons. case_decide as Heq.
  - subst x. rewrite filter_cons_False.
    + symmetry. apply filter_all. intros y (z & -> & Hz)%list_elem_of_fmap.
      apply HP; [by right |]. intros ->. contradiction.
    + intros HPe. apply HP in HPe; [done | by left].
  - rewrite filter_cons_True by (apply HP; [by left | done]).
    rewrite fmap_cons. f_equal. apply IH.
    intros y Hy. apply HP. by right.
Qed.

Lemma unlink_commute (e1 e2 : ptr) (c : list ptr) :
  unlink e1 (unlink e2 c) = unlink e2 (unlink e1 c).
Proof.
  induction c as [| x c IH]; [done |]. simpl.
  destruct (decide (x = e2)) as [H2 | H2], (decide (x = e1)) as [H1 | H1];
    simpl.
  - congruence.
  - by rewrite decide_True.
  - by rewrite decide_True.
  - rewrite !decide_False by done. by rewrite IH.
Qed.

End more_list_facts.

Section more_removal.
Implicit Types (m : Map) (k v : any) (e : ptr).

(** [Delete] drops the entry of its key from the list and keeps the other
    entries where they are; keys are compared with [==]. *)
Lemma view_Delete m k :
  wf m →
  view (Delete k m).2 = filter (λ kv, go_eq kv.1 k = false) (view m).
Proof.
  intros Hwf. unfold Delete. destruct (mp m !! k) as [e |] eqn:Hk; simpl.
  - transitivity (entry m <$> unlink e (chain (dll m))); [done |].
    apply (fmap_unlink (entry m) (λ kv, go_eq kv.1 k = false));
      [by apply wf_nodup |].
    intros x Hx. destruct (wf_nodes m Hwf _ Hx) as [k' Hk'].
    rewrite (entry_of_entries m k' x Hwf Hk'). split.
    + intros Hne ->. destruct (wf_index m Hwf _ _ Hk) as [_ [v Hv]].
      destruct (wf_entries m Hwf _ _ Hk') as [_ [v' Hv']].
      assert (k' = k) as -> by congruence.
      apply gomap_lookup_Some in Hk as [Hrefl _]. congruence.
    + intros Hne. destruct (go_eq k' k) eqn:Heq; [| done].
      apply go_eq_spec in Heq as [-> Hrefl]. exfalso. apply Hne.
      pose proof (wf_entry_lookup m k x Hwf Hrefl Hk'). congruence.
  - symmetry. apply filter_all. intros [k' v'] Hin. simpl.
    destruct (go_eq k' k) eqn:Heq; [| done].
    apply go_eq_spec in Heq as [-> Hrefl]. exfalso.
    assert (present k m) as [e He]; [| congruence].
    apply (present_view m k Hwf). split; [done |].
    apply list_elem_of_fmap. by exists (k, v').
Qed.

Lemma Get_Delete_other m k k' :
  k' ≠ k → fst <$> Get k' (Delete k m).2 = fst <$> Get k' m.
Proof.
  intros Hne. unfold Delete. destruct (mp m !! k) as [e |]; [| done].
  unfold Get. simpl. rewrite gomap_lookup_delete_ne by done.
  destruct (mp m !! k') as [e' |]; [| done].
  change (element e' (Remove e (dll m))) with (element e' (dll m)).
  by destruct (element e' (dll m)).
Qed.

(** In a state that satisfies the invariant [GetAndDelete] leaves the state
    [Delete] leaves and reports the same flag. *)
Lemma GetAndDelete_as_Delete m k :
  wf m →
  ∃ r, GetAndDelete k m = Some ((r, (Delete k m).1), (Delete k m).2).
Proof.
  intros Hwf. unfold GetAndDelete, Delete.
  destruct (mp m !! k) as [e |] eqn:Hk; [| by exists Nil].
  destruct (wf_index m Hwf _ _ Hk) as [_ [v Hv]].
  exists (Struct k v). unfold Value. simpl. by rewrite Hv.
Qed.

End more_removal.

(** X1.  [Delete(k)] changes nothing but the entry of [k]: the entries
    whose key is not [==] to [k] stay in the list in the same order, so
    [OrderedRange] makes the calls it made before without the one for [k],
    and [Get] reports the same for every other key. *)
Theorem Delete_frame (m : Map) (k : any) :
  reachable m →
  view (Delete k m).2 = filter (λ kv, go_eq kv.1 k = false) (view m)
  ∧ (∃ calls,
       OrderedRange m = Some calls
       ∧ OrderedRange (Delete k m).2
           = Some (filter (λ kv, go_eq kv.1 k = false) calls))
  ∧ (∀ k', k' ≠ k → fst <$> Get k' (Delete k m).2 = fst <$> Get k' m).
Proof.
  intros Hwf%reachable_wf. split; [by apply view_Delete |]. split.
  - exists (reverse (view m)). split; [by apply OrderedRange_view |].
    rewrite OrderedRange_view by (by apply wf_Delete).
    by rewrite view_Delete, filter_reverse.
  - intros k' Hne. by apply Get_Delete_other.
Qed.

Lemma Delete_frame_witness :
  reachable example_puts
  ∧ view (Delete (Str "a") example_puts).2
      = filter (λ kv, go_eq kv.1 (Str "a") = false) (view example_puts).
Proof.
  split; [apply reachable_example_puts |].
  apply (Delete_frame example_puts (Str "a") reachable_example_puts).
Defined.

(** X2.  In every reachable state [GetAndDelete(k)] does not panic, leaves
    exactly the state [Delete(k)] leaves and reports the flag [Delete(k)]
    returns. *)
Theorem GetAndDelete_Delete (m : Map) (k : any) :
  reachable m →
  ∃ r, GetAndDelete k m = Some ((r, (Delete k m).1), (Delete k m).2).
Proof. intros Hwf%reachable_wf. by apply GetAndDelete_as_Delete. Qed.

Lemma GetAndDelete_Delete_witness :
  reachable example_puts
  ∧ ∃ r, GetAndDelete (Str "b") example_puts
         = Some ((r, (Delete (Str "b") example_puts).1),
                 (Delete (Str "b") example_puts).2).
Proof.
  split; [apply reachable_example_puts |].
  apply (GetAndDelete_Delete example_puts (Str "b") reachable_example_puts).
Defined.

(** X3.  What [GetAndDelete] returns: for a key for which [Get] reports the
    value [v], the first result is the stored list element
    [mapElement{k, v}], which is never [v] itself, with [true]; for a key
    that is not present the results are nil and [false] and the state is
    unchanged. *)
Theorem GetAndDelete_results (m : Map) (k v : any) :
  reachable m →
  (Get k m = Some ((v, true), m) →
     fst <$> GetAndDelete k m = Some (Struct k v, true) ∧ Struct k v ≠ v)
  ∧ (¬ present k m → GetAndDelete k m = Some ((Nil, false), m)).
Proof.
  intros Hwf%reachable_wf. split.
  - intros Hget. split; [| apply Struct_neq_value].
    destruct (GetAndDelete_present m k v Hwf Hget) as (m' & -> & _). done.
  - apply GetAndDelete_absent.
Qed.

Lemma GetAndDelete_results_witness :
  reachable example_puts
  ∧ Get (Str "a") example_puts = Some ((Int 3, true), example_puts)
  ∧ fst <$> GetAndDelete (Str "a") example_puts
      = Some (Struct (Str "a") (Int 3), true).
Proof.
  assert (Get (Str "a") example_puts = Some ((Int 3, true), example_puts))
    as Hget by (by apply (Get_after_Put _ (Str "a") (Int 3))).
  split; [apply reachable_example_puts |]. split; [exact Hget |].
  destruct (GetAndDelete_results example_puts (Str "a") (Int 3)
              reachable_example_puts) as [Hpresent _].
  exact (proj1 (Hpresent Hget)).
Defined.

(** X4.  Deleting a key a second time finds nothing: after [Delete(k)], in
    any state, another [Delete(k)] returns [false] and a [GetAndDelete(k)]
    returns nil and [false], and both leave the state as it is. *)
Theorem Delete_twice (m : Map) (k : any) :
  Delete k (Delete k m).2 = (false, (Delete k m).2)
  ∧ GetAndDelete k (Delete k m).2 = Some ((Nil, false), (Delete k m).2).
Proof.
  assert (mp (Delete k m).2 !! k = None) as Hgone.
  { unfold Delete. destruct (mp m !! k) as [e |] eqn:Hk; simpl; [| done].
    apply gomap_lookup_delete_eq. }
  unfold Delete at 1, GetAndDelete. by rewrite Hgone.
Qed.

(** X5.  Deletions of two keys commute: the state after [Delete(k1)] and
    [Delete(k2)] does not depend on their order. *)
Theorem Delete_commute (m : Map) (k1 k2 : any) :
  (Delete k1 (Delete k2 m).2).2 = (Delete k2 (Delete k1 m).2).2.
Proof.
  destruct (decide (k1 = k2)) as [-> | Hne]; [done |].
  unfold Delete.
  destruct (mp m !! k1) as [e1 |] eqn:H1, (mp m !! k2) as [e2 |] eqn:H2;
    simpl; rewrite ?gomap_lookup_delete_ne, ?H1, ?H2 by done; simpl; try done.
  f_equal; [apply gomap_delete_commute |].
  unfold Remove. simpl. f_equal. apply unlink_commute.
Qed.

(** ** Further properties: writing *)

(** X6.  The last write wins: for a key that is equal to itself,
    [Put(k, v1)] followed by [Put(k, v2)] leaves the very state [Put(k, v2)]
    alone leaves, in any state. *)
Theorem Put_Put (m : Map) (k v1 v2 : any) :
  go_eq k k = true → Put k v2 (Put k v1 m) = Put k v2 m.
Proof.
  intros Hrefl. unfold Put. destruct (mp m !! k) as [e |] eqn:Hk; simpl.
  - rewrite Hk. unfold SetValue. simpl. by rewrite insert_insert_eq.
  - rewrite (gomap_lookup_insert_eq _ _ _ Hrefl). unfold SetValue. simpl.
    by rewrite insert_insert_eq.
Qed.

Lemma Put_Put_witness :
  go_eq (Int 4) (Int 4) = true
  ∧ Put (Int 4) (Str "y") (Put (Int 4) (Str "x") example_puts)
      = Put (Int 4) (Str "y") example_puts.
Proof.
  assert (go_eq (Int 4) (Int 4) = true) as Hrefl by reflexivity.
  split; [exact Hrefl |].
  exact (Put_Put example_puts (Int 4) (Str "x") (Str "y") Hrefl).
Defined.

(** X7.  Overwriting two different present keys commutes: the state does
    not depend on the order of the two [Put]s. *)
Theorem Put_commute_present (m : Map) (k1 k2 v1 v2 : any) :
  reachable m → present k1 m → present k2 m → k1 ≠ k2 →
  Put k1 v1 (Put k2 v2 m) = Put k2 v2 (Put k1 v1 m).
Proof.
  intros Hwf%reachable_wf [e1 H1] [e2 H2] Hne.
  assert (e1 ≠ e2) as Hee by (intros ->; by apply Hne, (wf_inj m k1 k2 e2)).
  unfold Put. rewrite H1, H2. simpl. rewrite H1, H2.
  unfold SetValue. simpl. by rewrite insert_insert_ne.
Qed.

Lemma Put_commute_present_witness :
  reachable example_puts
  ∧ present (Str "a") example_puts ∧ present (Str "b") example_puts
  ∧ Str "a" ≠ Str "b"
  ∧ Put (Str "a") Nil (Put (Str "b") (Int 0) example_puts)
      = Put (Str "b") (Int 0) (Put (Str "a") Nil example_puts).
Proof.
  assert (present (Str "a") example_puts) as Ha by (vm_compute; eauto).
  assert (present (Str "b") example_puts) as Hb by (vm_compute; eauto).
  assert (Str "a" ≠ Str "b") as Hne by discriminate.
  repeat (split; [first [apply reachable_example_puts | assumption] |]).
  exact (Put_commute_present example_puts (Str "a") (Str "b") Nil (Int 0)
           reachable_example_puts Ha Hb Hne).
Defined.

(** X8.  Inserting an absent key that is equal to itself and deleting it
    again undoes the insertion for every observer: [Delete] reports [true],
    the index and the linked elements are the ones before, and [Length],
    [OrderedRange] and every [Get] give what they gave before. *)
Theorem Put_Delete_absent (m : Map) (k v : any) :
  reachable m → go_eq k k = true → ¬ present k m →
  (Delete k (Put k v m)).1 = true
  ∧ mp (Delete k (Put k v m)).2 = mp m
  ∧ chain (dll (Delete k (Put k v m)).2) = chain (dll m)
  ∧ Length (Delete k (Put k v m)).2 = Length m
  ∧ OrderedRange (Delete k (Put k v m)).2 = OrderedRange m
  ∧ (∀ k', fst <$> Get k' (Delete k (Put k v m)).2 = fst <$> Get k' m).
Proof.
  intros Hwf%reachable_wf Hrefl Hk%not_present.
  pose proof (wf_Delete _ k (wf_Put m k v Hwf)) as Hwf'.
  assert (Delete k (Put k v m)
          = (true, MkMap (mp m)
                     (MkList (<[next (dll m) := Struct k v]> (store (dll m)))
                        (chain (dll m)) (Pos.succ (next (dll m)))))) as Hdel.
  { unfold Delete, Put. rewrite Hk. simpl.
    rewrite (gomap_lookup_insert_eq _ _ _ Hrefl).
    rewrite (gomap_delete_insert _ _ _ Hrefl Hk).
    unfold Remove. simpl. by rewrite decide_True. }
  rewrite Hdel in *. simpl in *.
  assert (view (MkMap (mp m)
                  (MkList (<[next (dll m) := Struct k v]> (store (dll m)))
                     (chain (dll m)) (Pos.succ (next (dll m)))))
          = view m) as Hview.
  { apply list_fmap_ext. intros i e Hi%list_elem_of_lookup_2.
    unfold entry, element, Value. simpl. rewrite lookup_insert_ne; [done |].
    intros <-. by apply (wf_next_fresh m Hwf). }
  repeat split.
  - by rewrite !OrderedRange_view, Hview.
  - intros k'. unfold Get. simpl.
    destruct (mp m !! k') as [e' |] eqn:Hk'; [| done].
    pose proof (wf_index_lt m k' e' Hwf Hk').
    unfold element, Value. simpl. rewrite lookup_insert_ne by lia.
    by destruct (store (dll m) !! e' ≫= assert_mapElement).
Qed.

Lemma Put_Delete_absent_witness :
  reachable example_puts ∧ go_eq Nil Nil = true
  ∧ ¬ present Nil example_puts
  ∧ OrderedRange (Delete Nil (Put Nil (Str "v") example_puts)).2
      = OrderedRange example_puts.
Proof.
  assert (go_eq Nil Nil = true) as Hrefl by reflexivity.
  assert (¬ present Nil example_puts) as Hp.
  { apply not_present. vm_compute. reflexivity. }
  split; [apply reachable_example_puts |]. split; [exact Hrefl |].
  split; [exact Hp |].
  apply (Put_Delete_absent example_puts Nil (Str "v")
           reachable_example_puts Hrefl Hp).
Defined.

(** X9.  Deleting a key and putting it again moves it to the end:
    [OrderedRange] then makes the calls for the keys that are not [==] to
    it in their old order and the call for the key last. *)
Theorem Delete_Put_moves_last (m : Map) (k v : any) :
  reachable m →
  ∃ calls,
    OrderedRange m = Some calls
    ∧ OrderedRange (Put k v (Delete k m).2)
        = Some (filter (λ kv, go_eq kv.1 k = false) calls ++ [(k, v)]).
Proof.
  intros Hwf%reachable_wf.
  pose proof (wf_Delete m k Hwf) as Hwf'.
  exists (reverse (view m)). split; [by apply OrderedRange_view |].
  rewrite OrderedRange_view by (by apply wf_Put).
  rewrite view_Put_absent; [| done |].
  - by rewrite reverse_cons, view_Delete, filter_reverse.
  - unfold Delete. destruct (mp m !! k) as [e |] eqn:Hk; simpl; [| done].
    apply gomap_lookup_delete_eq.
Qed.

Lemma Delete_Put_moves_last_witness :
  reachable example_puts
  ∧ ∃ calls,
      OrderedRange example_puts = Some calls
      ∧ OrderedRange (Put (Str "a") Nil (Delete (Str "a") example_puts).2)
          = Some (filter (λ kv, go_eq kv.1 (Str "a") = false) calls
                  ++ [(Str "a", Nil)]).
Proof.
  split; [apply reachable_example_puts |].
  apply (Delete_Put_moves_last example_puts (Str "a") Nil
           reachable_example_puts).
Defined.

(** X10.  [Length()] is never negative, and it is 0 exactly when the index
    has no entry, which is exactly when [OrderedRange] makes no call; no key
    is present then. *)
Theorem Length_zero (m : Map) :
  reachable m →
  0 ≤ Length m
  ∧ (Length m = 0 ↔ gomap_entries (mp m) = [])
  ∧ (Length m = 0 ↔ OrderedRange m = Some [])
  ∧ (Length m = 0 → ∀ k, ¬ present k m).
Proof.
  intros Hwf%reachable_wf. split; [unfold Length, Len; lia |].
  assert (Length m = 0 ↔ gomap_entries (mp m) = []) as Hempty.
  { rewrite (Length_size m Hwf). unfold size, gomap_size. split.
    - intros Hlen. apply nil_length_inv. lia.
    - by intros ->. }
  split; [done |]. split.
  - rewrite (OrderedRange_view m Hwf). unfold Length, Len, view. split.
    + intros Hlen. assert (chain (dll m) = []) as ->; [| done].
      apply nil_length_inv. lia.
    + intros [= Hrev]. apply (f_equal length) in Hrev.
      rewrite length_reverse, length_fmap in Hrev. simpl in Hrev. lia.
  - intros Hlen%Hempty k [e Hk%gomap_lookup_entries].
    rewrite Hlen in Hk. by apply elem_of_nil in Hk.
Qed.

Lemma Length_zero_witness :
  reachable New ∧ (Length New = 0 ↔ OrderedRange New = Some []).
Proof.
  split; [apply reachable_New |].
  apply (Length_zero New reachable_New).
Defined.

(** X12.  A key that is not equal to itself (NaN, or a struct that holds
    NaN) is never found.  In every reachable state it is not present, [Get]
    returns nil and [false], [Delete] returns [false] and [GetAndDelete]
    nil and [false] without a change of the state; [GetOrPut] reports
    [false], and every [Put] adds an entry of its own, which [OrderedRange]
    visits last and which a [Get] or a [Delete] that follows does not
    reach. *)
Theorem irreflexive_key (m : Map) (k v : any) :
  reachable m → go_eq k k = false →
  ¬ present k m
  ∧ Get k m = Some ((Nil, false), m)
  ∧ Delete k m = (false, m)
  ∧ GetAndDelete k m = Some ((Nil, false), m)
  ∧ (GetOrPut k v m).1 = (v, false)
  ∧ Length (Put k v m) = Length m + 1
  ∧ (∃ calls,
       OrderedRange m = Some calls
       ∧ OrderedRange (Put k v m) = Some (calls ++ [(k, v)]))
  ∧ Get k (Put k v m) = Some ((Nil, false), Put k v m)
  ∧ Delete k (Put k v m) = (false, Put k v m).
Proof.
  intros Hwf%reachable_wf Hirr.
  assert (∀ m', mp m' !! k = None) as Hnone
    by (intros m'; by apply gomap_lookup_irreflexive).
  assert (∀ m', Delete k m' = (false, m')) as Hdel
    by (intros m'; unfold Delete; by rewrite Hnone).
  split; [by apply not_present |].
  split; [by apply Get_absent |].
  split; [done |].
  split; [by apply GetAndDelete_absent, not_present |].
  split.
  { rewrite GetOrPut_result, bool_decide_eq_false_2; [done |].
    by apply not_present. }
  split; [by apply Length_Put_absent |].
  split; [| split; [by apply Get_absent | done]].
  exists (reverse (view m)). split; [by apply OrderedRange_view |].
  rewrite OrderedRange_view by (by apply wf_Put).
  by rewrite view_Put_absent, reverse_cons.
Qed.

Lemma irreflexive_key_witness :
  reachable example_puts ∧ go_eq NaN NaN = false
  ∧ Get NaN (Put NaN (Int 1) example_puts)
      = Some ((Nil, false), Put NaN (Int 1) example_puts)
  ∧ Length (Put NaN (Int 2) (Put NaN (Int 1) example_puts))
      = Length example_puts + 1 + 1.
Proof.
  assert (go_eq NaN NaN = false) as Hirr by reflexivity.
  split; [apply reachable_example_puts |]. split; [exact Hirr |].
  split.
  - apply (irreflexive_key example_puts NaN (Int 1)
             reachable_example_puts Hirr).
  - destruct (irreflexive_key (Put NaN (Int 1) example_puts) NaN (Int 2)
                (reachable_Put NaN (Int 1) _ reachable_example_puts) Hirr)
      as (_ & _ & _ & _ & _ & -> & _).
    destruct (irreflexive_key example_puts NaN (Int 1)
                reachable_example_puts Hirr)
      as (_ & _ & _ & _ & _ & -> & _).
    reflexivity.
Defined.

(** ** Further properties: programs against the reference model *)

Section refinement.
Implicit Types (m : Map) (k v : any) (l : list (any * any)) (ops : list op).

Lemma assoc_get_cons k (kv : any * any) l :
  assoc_get k (kv :: l)
    = if go_eq kv.1 k then (kv.2, true) else assoc_get k l.
Proof.
  unfold assoc_get. simpl. destruct (go_eq kv.1 k) eqn:Heq.
  - by rewrite decide_True.
  - rewrite decide_False by done.
    by destruct (list_find _ l) as [[i kv'] |].
Qed.

Lemma assoc_get_elem k v l :
  NoDup (filter (λ k', go_eq k' k' = true) l.*1) → go_eq k k = true →
  (k, v) ∈ l → assoc_get k l = (v, true).
Proof.
  intros Hnd Hrefl. induction l as [| [k0 v0] l IH]; intros Hin.
  - by apply elem_of_nil in Hin.
  - rewrite assoc_get_cons. simpl.
    apply elem_of_cons in Hin as [[= <- <-] | Hin]; [by rewrite Hrefl |].
    rewrite fmap_cons in Hnd. simpl in Hnd.
    destruct (go_eq k0 k) eqn:Heq.
    + apply go_eq_spec in Heq as [-> _]. exfalso.
      rewrite filter_cons_True in Hnd by done.
      apply list.NoDup_cons in Hnd as [Hnotin _]. apply Hnotin.
      apply list_elem_of_filter. split; [done |].
      apply list_elem_of_fmap. by exists (k, v).
    + apply IH; [| done]. destruct (go_eq k0 k0) eqn:H0.
      * rewrite filter_cons_True in Hnd by done.
        by apply list.NoDup_cons in Hnd as [_ ?].
      * rewrite filter_cons_False in Hnd; [done | congruence].
Qed.

Lemma assoc_get_notin k l :
  (∀ kv, kv ∈ l → go_eq kv.1 k = false) → assoc_get k l = (Nil, false).
Proof.
  induction l as [| kv l IH]; intros Hk; [done |].
  rewrite assoc_get_cons, (Hk kv) by (by left).
  apply IH. intros kv' Hin. apply Hk. by right.
Qed.

(** A key is [==] to the key of some entry when it is equal to itself and
    is the key of an entry. *)
Lemma existsb_go_eq k l :
  existsb (λ kv, go_eq kv.1 k) l = true ↔ go_eq k k = true ∧ k ∈ l.*1.
Proof.
  rewrite existsb_exists. split.
  - intros ([k' v'] & Hin & Heq). apply list_elem_of_In in Hin.
    simpl in Heq. apply go_eq_spec in Heq as [-> Hrefl].
    split; [done |]. apply list_elem_of_fmap. by exists (k, v').
  - intros [Hrefl Hin].
    apply list_elem_of_fmap in Hin as ([k' v'] & -> & Hin).
    exists (k', v'). split; [by apply list_elem_of_In | done].
Qed.

(** [Get] is the lookup in the entries of the list. *)
Lemma Get_assoc m k :
  wf m → fst <$> Get k m = Some (assoc_get k (reverse (view m))).
Proof.
  intros Hwf. destruct (mp m !! k) as [e |] eqn:Hk.
  - destruct (wf_index m Hwf _ _ Hk) as [_ [v Hv]].
    pose proof (Get_stored m k e v Hk Hv) as Hget. rewrite Hget. simpl.
    apply (Get_view m k v Hwf) in Hget as [Hrefl Hin].
    f_equal. symmetry. apply assoc_get_elem; [| done |].
    + rewrite fmap_reverse, reverse_Permutation. by apply NoDup_view_keys.
    + by rewrite elem_of_reverse.
  - rewrite (Get_absent m k Hk). simpl. f_equal. symmetry.
    apply assoc_get_notin. intros [k' v'] Hin. simpl.
    rewrite elem_of_reverse in Hin.
    destruct (go_eq k' k) eqn:Heq; [| done].
    apply go_eq_spec in Heq as [-> Hrefl]. exfalso.
    assert (present k m) as [e He]; [| congruence].
    apply (present_view m k Hwf). split; [done |].
    apply list_elem_of_fmap. by exists (k, v').
Qed.

Lemma model_Put m k v :
  wf m → reverse (view (Put k v m)) = upsert k v (reverse (view m)).
Proof.
  intros Hwf. unfold upsert.
  destruct (existsb _ (reverse (view m))) eqn:Hex.
  - apply existsb_go_eq in Hex.
    rewrite fmap_reverse, elem_of_reverse, <- present_view in Hex by done.
    by rewrite view_Put_present, fmap_reverse.
  - rewrite view_Put_absent, reverse_cons; [done.. |].
    apply not_present. intros Hp%(present_view m k Hwf).
    rewrite <- (elem_of_reverse k), <- fmap_reverse in Hp.
    apply existsb_go_eq in Hp. congruence.
Qed.

Lemma model_Delete m k :
  wf m → reverse (view (Delete k m).2) = remove_key k (reverse (view m)).
Proof.
  intros Hwf. unfold remove_key. by rewrite view_Delete, filter_reverse.
Qed.

Lemma exec_model m (o : op) :
  wf m →
  ∃ m', exec o m = Some m' ∧ wf m'
        ∧ reverse (view m') = model_step (reverse (view m)) o.
Proof.
  intros Hwf. destruct o as [k v | k | k v | k]; simpl.
  - exists (Put k v m). by auto using wf_Put, model_Put.
  - exists (Delete k m).2. by auto using wf_Delete, model_Delete.
  - exists (GetOrPut k v m).2. split; [done |].
    rewrite GetOrPut_state. by auto using wf_Put, model_Put.
  - destruct (GetAndDelete_as_Delete m k Hwf) as [r ->]. simpl.
    exists (Delete k m).2. by auto using wf_Delete, model_Delete.
Qed.

Lemma run_snoc ops (o : op) : run (ops ++ [o]) = run ops ≫= exec o.
Proof. unfold run. by rewrite foldl_app. Qed.

Lemma run_model ops :
  ∃ m, run ops = Some m ∧ wf m ∧ reverse (view m) = model ops.
Proof.
  induction ops as [| o ops IH] using rev_ind.
  - exists New. split; [done |]. split; [apply wf_New | done].
  - destruct IH as (m & Hrun & Hwf & Hmodel).
    destruct (exec_model m o Hwf) as (m' & Hexec & Hwf' & Hstep).
    exists m'. rewrite run_snoc, Hrun. simpl. split; [done |].
    split; [done |]. unfold model. rewrite foldl_app. simpl.
    fold (model ops). by rewrite <- Hmodel.
Qed.

End refinement.

(** X11.  The map refines the list of entries in insertion order, with keys
    compared by [==].  Every program of [Put], [Delete], [GetOrPut] and
    [GetAndDelete] calls on [New()] reaches a state, and in that state
    [OrderedRange] makes exactly the calls of the reference list (a written
    key keeps its place or goes to the end, a deleted key is dropped),
    [UnorderedRange] has an enumeration to take and makes the same calls in
    some order whichever it takes, [Get] is the lookup in that list and
    [Length()] is its length. *)
Theorem run_refines_model (ops : list op) :
  ∃ m, run ops = Some m
       ∧ OrderedRange m = Some (model ops)
       ∧ (∃ ucalls, UnorderedRange m ucalls)
       ∧ (∀ ucalls, UnorderedRange m ucalls → ucalls ≡ₚ model ops)
       ∧ (∀ k, fst <$> Get k m = Some (assoc_get k (model ops)))
       ∧ Length m = Z.of_nat (length (model ops)).
Proof.
  destruct (run_model ops) as (m & Hrun & Hwf & Hmodel).
  exists m. split; [done |]. rewrite <- Hmodel.
  split; [by apply OrderedRange_view |].
  split; [by apply UnorderedRange_total |].
  split.
  { intros ucalls Hu. rewrite reverse_Permutation.
    by apply UnorderedRange_view. }
  split; [intros k; by apply Get_assoc |].
  unfold Length, Len, view. by rewrite length_reverse, length_fmap.
Qed.
